(** * Advent of Code 2024, days 1 to 3: a shallow embedding and its properties

    The repository holds independent puzzle solutions:
    - [AdventOfCode/2024/01.go] and [01.js]: the distance / similarity
      calculator (module [Day01] for Go, [Day01JS] for JavaScript);
    - the report safety checker, a Go program (module [Day02]);
    - [AdventOfCode/2024/03.go]: the instruction scanner (module [Day03]).

    Go's [int] is taken at its 64-bit width: a value is a [Z] and every
    arithmetic operation of the source is followed by its wrap-around
    ([GoInt.wrap]).  A Go [string] is a sequence of bytes, here a
    [list ascii]; [str] turns a literal into one. *)

From Stdlib Require Import ZArith List Ascii String Lia Bool Permutation Sorted.
From stdpp Require Import gmap.

Local Open Scope Z_scope.

Definition str (s : string) : list ascii := list_ascii_of_string s.

(** The bytes of the given values, for the bytes a literal cannot hold. *)
Definition bytes (l : list Z) : list ascii :=
  map (fun b => ascii_of_nat (Z.to_nat b)) l.

(** ** Go's 64-bit [int] *)
Module GoInt.

Definition minInt : Z := - 2 ^ 63.
Definition maxInt : Z := 2 ^ 63 - 1.
Definition maxUint64 : Z := 2 ^ 64 - 1.

Definition in_range (z : Z) : Prop := minInt <= z <= maxInt.

(** Two's complement wrap-around of a mathematical integer. *)
Definition wrap (z : Z) : Z := (z + 2 ^ 63) mod 2 ^ 64 - 2 ^ 63.

Definition add (a b : Z) : Z := wrap (a + b).
Definition sub (a b : Z) : Z := wrap (a - b).
Definition mul (a b : Z) : Z := wrap (a * b).

(** [float64(n)]: the nearest double, ties to even.  The value of the double
    is an integer here, so it is kept as a [Z]. *)
Definition float64 (n : Z) : Z :=
  let a := Z.abs n in
  if a <? 2 ^ 53 then n
  else
    let e := Z.log2 a - 52 in
    let q := a / 2 ^ e in
    let r := a mod 2 ^ e in
    let half := 2 ^ (e - 1) in
    let q' := if r <? half then q
              else if half <? r then q + 1
              else if Z.even q then q else q + 1 in
    Z.sgn n * (q' * 2 ^ e).

(** [int(f)] for an integral double [f]: exact when [f] fits; out of range the
    Go specification leaves the value to the implementation, and amd64 yields
    the smallest integer. *)
Definition of_float64 (f : Z) : Z :=
  if (minInt <=? f) && (f <=? maxInt) then f else minInt.

End GoInt.

(** ** [strconv.Atoi] *)
Module strconv.

Inductive ErrKind := ErrSyntax | ErrRange.

(** [*strconv.NumError]: the failing function, the input and the cause. *)
Record NumError := mkNumError { Func : string; Num : list ascii; Err : ErrKind }.

Definition is_digit (c : ascii) : bool :=
  let n := nat_of_ascii c in (48 <=? n)%nat && (n <=? 57)%nat.

Definition digit_val (c : ascii) : Z := Z.of_nat (nat_of_ascii c) - 48.

(** The digit loop of [ParseUint] in base 10 and 64 bits: it stops at the
    first byte that is not a digit, or at the first digit that takes the
    value past [maxUint64]. *)
Fixpoint parse_digits (acc : Z) (s : list ascii) : ErrKind + Z :=
  match s with
  | [] => inr acc
  | c :: rest =>
      if is_digit c then
        let n := acc * 10 + digit_val c in
        if GoInt.maxUint64 <? n then inl ErrRange else parse_digits n rest
      else inl ErrSyntax
  end.

Definition is_sign (c : ascii) : bool :=
  Ascii.eqb c "+"%char || Ascii.eqb c "-"%char.

Definition Atoi (s : list ascii) : NumError + Z :=
  let fail k := inl (mkNumError "Atoi" s k) in
  match s with
  | [] => fail ErrSyntax
  | c :: rest =>
      let neg := Ascii.eqb c "-"%char in
      let body := if is_sign c then rest else s in
      match body with
      | [] => fail ErrSyntax
      | _ =>
          match parse_digits 0 body with
          | inl k => fail k
          | inr un =>
              if neg then
                if 2 ^ 63 <? un then fail ErrRange else inr (- un)
              else
                if 2 ^ 63 <=? un then fail ErrRange else inr un
          end
      end
  end.

End strconv.

(** ** Runes: what [for i, r := range s] decodes, and [unicode.IsSpace] *)
Module utf8.

Definition RuneSelf : Z := 128.
Definition RuneError : Z := 65533.
Definition MaxRune : Z := 1114111.

Definition byte_val (c : ascii) : Z := Z.of_nat (nat_of_ascii c).

(** The byte [s[i]]; the decoder reads it only after it has checked that
    [i < len(s)]. *)
Definition byte_at (s : list ascii) (i : nat) : Z := byte_val (nth i s zero).

(** A continuation byte, [0x80] to [0xBF]. *)
Definition continuation (b : Z) : bool := (128 <=? b) && (b <=? 191).

(** The rune at the head of a non-empty [s] and its width in bytes.  A byte
    below [RuneSelf] is its own rune; otherwise this is [decoderune] of the
    run time: a two-, three- or four-byte sequence is accepted when its
    continuation bytes are there and the rune is not one a shorter sequence
    encodes, a surrogate, or beyond [MaxRune]; anything else is [RuneError]
    of width 1. *)
Definition decoderune (s : list ascii) : Z * nat :=
  let b := byte_at s in
  let n := length s in
  if b 0%nat <? RuneSelf then (b 0%nat, 1%nat)
  else if (192 <=? b 0%nat) && (b 0%nat <? 224) then
    if (1 <? n)%nat && continuation (b 1%nat) then
      let r := Z.lor (Z.shiftl (Z.land (b 0%nat) 31) 6) (Z.land (b 1%nat) 63) in
      if 127 <? r then (r, 2%nat) else (RuneError, 1%nat)
    else (RuneError, 1%nat)
  else if (224 <=? b 0%nat) && (b 0%nat <? 240) then
    if (2 <? n)%nat && continuation (b 1%nat) && continuation (b 2%nat) then
      let r := Z.lor (Z.lor (Z.shiftl (Z.land (b 0%nat) 15) 12)
                            (Z.shiftl (Z.land (b 1%nat) 63) 6))
                     (Z.land (b 2%nat) 63) in
      if (2047 <? r) && negb ((55296 <=? r) && (r <=? 57343))
      then (r, 3%nat) else (RuneError, 1%nat)
    else (RuneError, 1%nat)
  else if (240 <=? b 0%nat) && (b 0%nat <? 248) then
    if (3 <? n)%nat && continuation (b 1%nat) && continuation (b 2%nat)
       && continuation (b 3%nat) then
      let r := Z.lor (Z.lor (Z.lor (Z.shiftl (Z.land (b 0%nat) 7) 18)
                                   (Z.shiftl (Z.land (b 1%nat) 63) 12))
                            (Z.shiftl (Z.land (b 2%nat) 63) 6))
                     (Z.land (b 3%nat) 63) in
      if (65535 <? r) && (r <=? MaxRune)
      then (r, 4%nat) else (RuneError, 1%nat)
    else (RuneError, 1%nat)
  else (RuneError, 1%nat).

(** The pairs [(i, r)] of [for i, r := range s], from byte index [i] on;
    [skip] counts the bytes still to pass of the rune decoded last. *)
Fixpoint range_from (i skip : nat) (s : list ascii) : list (nat * Z) :=
  match s with
  | [] => []
  | _ :: rest =>
      match skip with
      | S k => range_from (S i) k rest
      | O =>
          let (r, width) := decoderune s in
          (i, r) :: range_from (S i) (width - 1) rest
      end
  end.

Definition range_string (s : list ascii) : list (nat * Z) := range_from 0 0 s.

End utf8.

Module unicode.

(** [unicode.IsSpace]: in Latin-1 the six ASCII spaces, U+0085 and U+00A0;
    beyond, the ranges of the table [White_Space]: U+1680, U+2000 to U+200A,
    U+2028, U+2029, U+202F, U+205F and U+3000. *)
Definition IsSpace (r : Z) : bool :=
  if r <=? 255 then
    (r =? 9) || (r =? 10) || (r =? 11) || (r =? 12) || (r =? 13) ||
    (r =? 32) || (r =? 133) || (r =? 160)
  else
    (r =? 5760) || ((8192 <=? r) && (r <=? 8202)) ||
    ((8232 <=? r) && (r <=? 8233)) || (r =? 8239) || (r =? 8287) ||
    (r =? 12288).

End unicode.

(** ** The functions of package [strings] the programs call *)
Module strings.

(** The table [asciiSpace]: tab, line feed, vertical tab, form feed, carriage
    return and space. *)
Definition asciiSpace (c : ascii) : bool :=
  let n := nat_of_ascii c in
  ((9 <=? n)%nat && (n <=? 13)%nat) || (n =? 32)%nat.

(** The ASCII path of [Fields]: the fields are the maximal runs of bytes
    that [asciiSpace] does not hold of.  [cur] holds the bytes of the field
    being read, last byte first. *)
Fixpoint fields_ascii (cur : list ascii) (s : list ascii) : list (list ascii) :=
  match s with
  | [] => match cur with [] => [] | _ => [rev cur] end
  | c :: rest =>
      if asciiSpace c then
        match cur with
        | [] => fields_ascii [] rest
        | _ => rev cur :: fields_ascii [] rest
        end
      else fields_ascii (c :: cur) rest
  end.

(** One turn of the loop of [FieldsFunc] over the runes of the string:
    [start] is the index at which the field being read began, if one is
    being read. *)
Definition FieldsFunc_step (f : Z -> bool)
  (st : list (nat * nat) * option nat) (p : nat * Z)
  : list (nat * nat) * option nat :=
  let (spans, start) := st in
  let (end_, rune) := p in
  if f rune then
    match start with
    | Some b => (spans ++ [(b, end_)], None)
    | None => (spans, None)
    end
  else
    match start with
    | Some b => (spans, Some b)
    | None => (spans, Some end_)
    end.

Definition FieldsFunc (s : list ascii) (f : Z -> bool) : list (list ascii) :=
  let (spans, start) :=
    fold_left (FieldsFunc_step f) (utf8.range_string s) ([], None) in
  let spans :=
    match start with
    | Some b => spans ++ [(b, length s)]
    | None => spans
    end in
  map (fun span : nat * nat => firstn (snd span - fst span) (skipn (fst span) s))
      spans.

(** [setBits]: the bits set in some byte of [s]. *)
Definition setBits (s : list ascii) : Z :=
  fold_left (fun bits c => Z.lor bits (utf8.byte_val c)) s 0.

(** A byte below [RuneSelf]. *)
Definition ascii_byte (c : ascii) : Prop := utf8.byte_val c < utf8.RuneSelf.

(** [strings.Fields]: a string with a byte that is not ASCII is split by
    [FieldsFunc] around the runes [unicode.IsSpace] holds of; a string of
    ASCII bytes is split around the bytes of [asciiSpace]. *)
Definition Fields (s : list ascii) : list (list ascii) :=
  if utf8.RuneSelf <=? setBits s then FieldsFunc s unicode.IsSpace
  else fields_ascii [] s.

Fixpoint HasPrefix (s prefix : list ascii) {struct prefix} : bool :=
  match prefix, s with
  | [], _ => true
  | _ :: _, [] => false
  | p :: prefix', c :: s' => Ascii.eqb c p && HasPrefix s' prefix'
  end.

(** [strings.Index]: the first position at which [substr] occurs, or -1. *)
Fixpoint Index (s substr : list ascii) : Z :=
  if HasPrefix s substr then 0
  else match s with
       | [] => -1
       | _ :: rest =>
           let i := Index rest substr in
           if i <? 0 then -1 else i + 1
       end.

Definition Contains (s substr : list ascii) : bool := 0 <=? Index s substr.

End strings.

(** Slices [s[:i]] and [s[i:]]. *)
Definition slice_to {A} (s : list A) (i : Z) : list A := firstn (Z.to_nat i) s.
Definition slice_from {A} (s : list A) (i : Z) : list A := skipn (Z.to_nat i) s.

(** ** What a program reads from [../input.txt] *)

(** [os.Open] fails, or the file opens and [bufio.Scanner] hands out the
    lines one by one and ends with the error [scanner.Err()] reports. *)
Inductive InputFile :=
| OpenFails
| Opened (lines : list (list ascii)) (scanErr : bool).

(** ** The report safety checker *)
Module Day02.

Inductive Panic :=
| PanicOpen
| PanicAtoi (e : strconv.NumError)
| PanicScan.

(** The inner loop of [readPuzzleInput]: one field after the other is
    converted and appended to [report]. *)
Fixpoint parse_fields (fields : list (list ascii)) (report : list Z)
  : strconv.NumError + list Z :=
  match fields with
  | [] => inr report
  | field :: rest =>
      match strconv.Atoi field with
      | inl err => inl err
      | inr value => parse_fields rest (report ++ [value])
      end
  end.

(** The outer loop: one report per line the scanner yields. *)
Fixpoint scan_lines (lines : list (list ascii)) (reports : list (list Z))
  : Panic + list (list Z) :=
  match lines with
  | [] => inr reports
  | line :: rest =>
      match parse_fields (strings.Fields line) [] with
      | inl err => inl (PanicAtoi err)
      | inr report => scan_lines rest (reports ++ [report])
      end
  end.

Definition readPuzzleInput (f : InputFile) : Panic + list (list Z) :=
  match f with
  | OpenFails => inl PanicOpen
  | Opened lines scanErr =>
      match scan_lines lines [] with
      | inl p => inl p
      | inr reports => if scanErr then inl PanicScan else inr reports
      end
  end.

(** One turn of the loop of [isSafe], at index [i], on the two flags. *)
Definition isSafe_step (report : list Z) (flags : bool * bool) (i : nat)
  : bool * bool :=
  let diff := GoInt.sub (nth i report 0) (nth (i - 1) report 0) in
  let increasing := if (diff <? 1) || (3 <? diff) then false else fst flags in
  let decreasing := if (diff <? -3) || (-1 <? diff) then false else snd flags in
  (increasing, decreasing).

Definition isSafe (report : list Z) : bool :=
  let flags :=
    fold_left (isSafe_step report) (seq 1 (length report - 1)) (true, true) in
  fst flags || snd flags.

(** [report] without its element at index [i], built as the source does. *)
Definition without (report : list Z) (i : nat) : list Z :=
  let newReport := [] ++ firstn i report in
  newReport ++ skipn (i + 1) report.

Fixpoint canBeSafe_from (report : list Z) (indices : list nat) : bool :=
  match indices with
  | [] => false
  | i :: rest =>
      if isSafe (without report i) then true else canBeSafe_from report rest
  end.

Definition canBeSafe (report : list Z) : bool :=
  canBeSafe_from report (seq 0 (length report)).

Fixpoint count_if (p : list Z -> bool) (reports : list (list Z)) (num_safe : Z)
  : Z :=
  match reports with
  | [] => num_safe
  | report :: rest =>
      count_if p rest (if p report then GoInt.add num_safe 1 else num_safe)
  end.

Definition partOne (reports : list (list Z)) : Z := count_if isSafe reports 0.
Definition partTwo (reports : list (list Z)) : Z := count_if canBeSafe reports 0.

(** *** Safety stated on the differences *)

(** [d[i] = report[i] - report[i-1]], the subtraction being Go's. *)
Definition diff (report : list Z) (i : nat) : Z :=
  GoInt.sub (nth i report 0) (nth (i - 1) report 0).

Definition increasing_safe (report : list Z) : Prop :=
  forall i, (1 <= i < length report)%nat -> 1 <= diff report i <= 3.

Definition decreasing_safe (report : list Z) : Prop :=
  forall i, (1 <= i < length report)%nat -> -3 <= diff report i <= -1.

(** The same on the differences of the integers, where no wrap-around
    takes part. *)
Definition difference (report : list Z) (i : nat) : Z :=
  nth i report 0 - nth (i - 1) report 0.

Definition differences_within (lo hi : Z) (report : list Z) : Prop :=
  forall i, (1 <= i < length report)%nat -> lo <= difference report i <= hi.

(** [isSafe] answers true exactly when every difference is in [1,3] or every
    one is in [-3,-1]. *)
Definition safe_iff_differences (report : list Z) : Prop :=
  isSafe report = true <->
  (differences_within 1 3 report \/ differences_within (-3) (-1) report).

(** No subtraction of the loop of [isSafe] leaves the range of [int]. *)
Definition no_overflow (report : list Z) : Prop :=
  forall i, (1 <= i < length report)%nat -> GoInt.in_range (difference report i).

(** [canBeSafe] answers true exactly when the report is safe or is safe
    without one of its elements. *)
Definition safe_or_one_removed (report : list Z) : Prop :=
  canBeSafe report = true <->
  (isSafe report = true \/
   exists i, (i < length report)%nat /\ isSafe (without report i) = true).

(** *** Reading stated on the lines *)

(** [report] holds the integers of the fields of [line], in order. *)
Definition parsed_line (line : list ascii) (report : list Z) : Prop :=
  Forall2 (fun field value => strconv.Atoi field = inr value)
    (strings.Fields line) report.

(** Some field of some line is not an integer [Atoi] accepts. *)
Definition bad_field (lines : list (list ascii)) : Prop :=
  exists line field err,
    In line lines /\ In field (strings.Fields line) /\
    strconv.Atoi field = inl err.

(** No report read from [f] is empty. *)
Definition no_empty_report (f : InputFile) : Prop :=
  forall reports,
    readPuzzleInput f = inr reports -> Forall (fun report => report <> []) reports.

(** *** The program *)

(** [main]: the two printed counts. *)
Definition main (f : InputFile) : Panic + (Z * Z) :=
  match readPuzzleInput f with
  | inl p => inl p
  | inr reports => inr (partOne reports, partTwo reports)
  end.

(** A report without an element, the report of a line without a field. *)
Definition is_empty (report : list Z) : bool :=
  match report with [] => true | _ :: _ => false end.

(** A line without a field. *)
Definition blank (line : list ascii) : bool :=
  match strings.Fields line with [] => true | _ :: _ => false end.

End Day02.

(** ** [sort.Ints] *)
Module sort.

Fixpoint insert (x : Z) (l : list Z) : list Z :=
  match l with
  | [] => [x]
  | y :: rest => if x <=? y then x :: l else y :: insert x rest
  end.

(** The result of [sort.Ints] is the ascending arrangement of the slice; it
    is computed here by insertion. *)
Definition Ints (l : list Z) : list Z := fold_right insert [] l.

End sort.

(** ** The distance / similarity calculator, Go *)
Module Day01.

Inductive Panic :=
| PanicOpen
| PanicScan
| PanicIndex.

(** What the program prints besides its two answers. *)
Inductive Message :=
| InvalidInput (part : list ascii)
| MismatchedLengths.

(** The scanning loop of [readPuzzleInput]: [left], [right] and the printed
    messages are carried from line to line. *)
Fixpoint scan_lines (lines : list (list ascii)) (left right : list Z)
  (out : list Message) : list Z * list Z * list Message :=
  match lines with
  | [] => (left, right, out)
  | line :: rest =>
      let parts := strings.Fields line in
      if (2 <=? length parts)%nat then
        match strconv.Atoi (nth 0 parts []) with
        | inl _ => scan_lines rest left right (out ++ [InvalidInput (nth 0 parts [])])
        | inr l =>
            match strconv.Atoi (nth 1 parts []) with
            | inl _ =>
                scan_lines rest left right (out ++ [InvalidInput (nth 1 parts [])])
            | inr r => scan_lines rest (left ++ [l]) (right ++ [r]) out
            end
        end
      else scan_lines rest left right out
  end.

Definition readPuzzleInput (f : InputFile)
  : Panic + (list Z * list Z * list Message) :=
  match f with
  | OpenFails => inl PanicOpen
  | Opened lines scanErr =>
      let scanned := scan_lines lines [] [] [] in
      let out := scanned.2 in
      if scanErr then inl PanicScan
      else
        let left := sort.Ints scanned.1.1 in
        let right := sort.Ints scanned.1.2 in
        if negb (length left =? length right)%nat then
          inr (left, right, out ++ [MismatchedLengths])
        else inr (left, right, out)
  end.

(** One turn of the loop of [partOne]; [None] is the run-time panic of an
    index out of range. *)
Definition partOne_step (left right : list Z) (acc : option Z) (i : nat)
  : option Z :=
  sum ← acc;
  l ← left !! i;
  r ← right !! i;
  Some (GoInt.add sum
          (GoInt.of_float64 (Z.abs (GoInt.float64 (GoInt.sub l r))))).

Definition partOne (left right : list Z) : option Z :=
  fold_left (partOne_step left right) (seq 0 (length left)) (Some 0).

(** [freq[val]++] on a map whose missing keys read as zero. *)
Definition incr (freq : gmap Z Z) (val : Z) : gmap Z Z :=
  <[val := GoInt.add (default 0 (freq !! val)) 1]> freq.

Definition partTwo (left right : list Z) : Z :=
  let freq := fold_left incr right (∅ : gmap Z Z) in
  fold_left (fun sum l => GoInt.add sum (GoInt.mul l (default 0 (freq !! l))))
    left 0.

(** [main]: the two printed answers. *)
Definition main (f : InputFile) : Panic + (Z * Z) :=
  match readPuzzleInput f with
  | inl p => inl p
  | inr columns =>
      let left := columns.1.1 in
      let right := columns.1.2 in
      match partOne left right with
      | None => inl PanicIndex
      | Some one => inr (one, partTwo left right)
      end
  end.

(** *** Part 1 stated on the columns *)

Definition sumZ (l : list Z) : Z := fold_right Z.add 0 l.

(** The sum over [i] of the distance between the [i]-th smallest element of
    [left] and the [i]-th smallest element of [right]. *)
Definition distance (left right : list Z) : Z :=
  sumZ (map (fun p => Z.abs (p.1 - p.2))
          (combine (sort.Ints left) (sort.Ints right))).

(** Integers a double holds exactly, with room for one subtraction. *)
Definition small (x : Z) : Prop := Z.abs x < 2 ^ 52.

(** The lines of the example of the puzzle. *)
Definition example_lines : list (list ascii) :=
  map str ["3   4"; "4   3"; "2   5"; "1   3"; "3   9"; "3   3"]%string.

(** *** Reading and Part 2 stated on the lines and the columns *)

(** What one line contributes: the integers of its first two fields. *)
Definition accepted (line : list ascii) : option (Z * Z) :=
  match strings.Fields line with
  | first :: second :: _ =>
      match strconv.Atoi first, strconv.Atoi second with
      | inr l, inr r => Some (l, r)
      | _, _ => None
      end
  | _ => None
  end.

(** What one line makes the program print: the first of its first two
    fields that is not an integer. *)
Definition complaint (line : list ascii) : option Message :=
  match strings.Fields line with
  | first :: second :: _ =>
      match strconv.Atoi first, strconv.Atoi second with
      | inl _, _ => Some (InvalidInput first)
      | inr _, inl _ => Some (InvalidInput second)
      | inr _, inr _ => None
      end
  | _ => None
  end.

Definition pairs (lines : list (list ascii)) : list (Z * Z) :=
  omap accepted lines.

Definition complaints (lines : list (list ascii)) : list Message :=
  omap complaint lines.

(** How often [v] occurs in [right]. *)
Definition occurrences_of (v : Z) (right : list Z) : Z :=
  Z.of_nat (length (List.filter (Z.eqb v) right)).

(** The similarity score: every element of [left] times the number of its
    occurrences in [right]. *)
Definition similarity (left right : list Z) : Z :=
  sumZ (map (fun l => l * occurrences_of l right) left).

End Day01.

(** ** The distance / similarity calculator, JavaScript *)
Module Day01JS.

(** The columns hold the string fields of the input lines.  A JavaScript
    number is a double, and the model follows the program on the part of
    the doubles where its arithmetic is that of the integers: a result
    [Some z] says that JavaScript computes exactly the integer [z], of
    absolute value at most 2^53.  [None] says that the computation has left
    that part, and nothing more: the sum or product is past 2^53, where a
    double rounds, or a field is not a run of decimal digits (JavaScript
    reads a sign, surrounding blanks, a fraction, an exponent or a hexadecimal
    literal as a number too, and the rest as [NaN]), or an index is past the
    end of an array.  The properties below are stated on results [Some z]
    accordingly. *)
Definition safe (z : Z) : option Z :=
  if Z.abs z <=? 2 ^ 53 then Some z else None.

Definition decimal (s : list ascii) : Z :=
  fold_left (fun acc c => acc * 10 + strconv.digit_val c) s 0.

(** [Number(s)] where it is an exact integer the model follows: the empty
    string is 0, a run of decimal digits of value at most 2^53 is that
    value. *)
Definition Number (s : list ascii) : option Z :=
  match s with
  | [] => Some 0
  | _ => if forallb strconv.is_digit s then safe (decimal s) else None
  end.

(** [a < b] on strings: code unit by code unit. *)
Fixpoint ltb (a b : list ascii) : bool :=
  match a, b with
  | _, [] => false
  | [], _ :: _ => true
  | x :: a', y :: b' =>
      if (nat_of_ascii x <? nat_of_ascii y)%nat then true
      else if (nat_of_ascii y <? nat_of_ascii x)%nat then false
      else ltb a' b'
  end.

Fixpoint insert (x : list ascii) (l : list (list ascii)) : list (list ascii) :=
  match l with
  | [] => [x]
  | y :: rest => if ltb y x then y :: insert x rest else x :: l
  end.

(** [Array.prototype.sort] without a comparator: ascending by [ltb]. *)
Definition sort (l : list (list ascii)) : list (list ascii) :=
  fold_right insert [] l.

Definition partOne_step (left right : list (list ascii)) (acc : option Z)
  (i : nat) : option Z :=
  sum ← acc;
  l ← left !! i ≫= Number;
  r ← right !! i ≫= Number;
  safe (sum + Z.abs (l - r)).

(** [partOne] sorts both arrays in place: the caller's arrays are returned
    with the sum, as [partTwo] receives them afterwards. *)
Definition partOne (left right : list (list ascii))
  : option Z * (list (list ascii) * list (list ascii)) :=
  let left := sort left in
  let right := sort right in
  (fold_left (partOne_step left right) (seq 0 (length left)) (Some 0),
   (left, right)).

(** [a === b] on strings. *)
Fixpoint str_eqb (a b : list ascii) : bool :=
  match a, b with
  | [], [] => true
  | x :: a', y :: b' => Ascii.eqb x y && str_eqb a' b'
  | _, _ => false
  end.

Definition partTwo (left right : list (list ascii)) : option Z :=
  fold_left
    (fun acc x =>
       sum ← acc;
       n ← Number x;
       p ← safe (n * Z.of_nat (length (List.filter (fun element => str_eqb element x) right)));
       safe (sum + p))
    left (Some 0).

(** The two calls of the reading callback, on the same two arrays. *)
Definition answers (left right : list (list ascii)) : option Z * option Z :=
  let called := partOne left right in
  let left := called.2.1 in
  let right := called.2.2 in
  (called.1, partTwo left right).

(** *** Part 2 stated on the fields *)

(** What one field of [left] adds to the sum of [partTwo]. *)
Definition term (right : list (list ascii)) (x : list ascii) : option Z :=
  n ← Number x;
  safe (n * Z.of_nat (length (List.filter (fun element => str_eqb element x) right))).

(** A sum of [partTwo] on the way: not a number, or not negative. *)
Definition not_negative (acc : option Z) : Prop :=
  match acc with Some sum => 0 <= sum | None => True end.

(** A field of exactly [w] digits. *)
Definition digit_field (w : nat) (field : list ascii) : Prop :=
  length field = w /\ Forall (fun c => strconv.is_digit c = true) field.

(** [b < a] does not hold: the order [sort] leaves two neighbours in. *)
Definition not_after (a b : list ascii) : Prop := ltb b a = false.

(** A field [Number] reads as the integer it spells: a run of at least one
    decimal digit, of value at most 2^53. *)
Definition exact_field (field : list ascii) : Prop :=
  field <> [] /\ Forall (fun c => strconv.is_digit c = true) field
  /\ decimal field <= 2 ^ 53.

(** The sum of [partTwo] in the integers: every field of [left] by the
    number of fields of [right] equal to it. *)
Definition weighted_sum (left right : list (list ascii)) : Z :=
  Day01.sumZ
    (map (fun x => decimal x
                   * Z.of_nat (length (List.filter
                                         (fun element => str_eqb element x) right)))
       left).

End Day01JS.

(** ** The instruction scanner *)
Module Day03.

(** The longest run of digits at the head of [s], and what follows it. *)
Fixpoint span_digits (s : list ascii) : list ascii * list ascii :=
  match s with
  | [] => ([], [])
  | c :: rest =>
      if strconv.is_digit c then
        let r := span_digits rest in (c :: r.1, r.2)
      else ([], s)
  end.

(** The regular expression [mul\((\d+),(\d+)\)] matched at the head of [s]:
    the two captured groups and the text after the match.  Each [\d+] is
    followed by a byte that is no digit, so a match takes the whole run. *)
Definition match_mul (s : list ascii)
  : option (list ascii * list ascii * list ascii) :=
  if strings.HasPrefix s (str "mul(") then
    let x := span_digits (skipn 4 s) in
    match x.1, x.2 with
    | _ :: _, sep :: s2 =>
        if Ascii.eqb sep ","%char then
          let y := span_digits s2 in
          match y.1, y.2 with
          | _ :: _, close :: s3 =>
              if Ascii.eqb close ")"%char then Some (x.1, y.1, s3) else None
          | _, _ => None
          end
        else None
    | _, _ => None
    end
  else None.

(** The leftmost match in [s]. *)
Fixpoint find_mul (s : list ascii)
  : option (list ascii * list ascii * list ascii) :=
  match match_mul s with
  | Some m => Some m
  | None => match s with [] => None | _ :: rest => find_mul rest end
  end.

(** [FindAllStringSubmatch(memory, -1)]: the leftmost match, then the
    matches of the text after it.  Only the groups [match[1]] and
    [match[2]] are kept. *)
Fixpoint find_all (fuel : nat) (s : list ascii)
  : list (list ascii * list ascii) :=
  match fuel with
  | O => []
  | S fuel' =>
      match find_mul s with
      | None => []
      | Some m => (m.1.1, m.1.2) :: find_all fuel' m.2
      end
  end.

Definition getMatches (memory : list ascii) : list (list ascii * list ascii) :=
  find_all (length memory) memory.

(** One turn of the loop of [partOne]; the line it prints when a conversion
    fails is left out. *)
Definition partOne_step (sum : Z) (m : list ascii * list ascii) : Z :=
  match strconv.Atoi m.1, strconv.Atoi m.2 with
  | inr a, inr b => GoInt.add sum (GoInt.mul a b)
  | _, _ => sum
  end.

Definition partOne (memory : list ascii) : Z :=
  fold_left partOne_step (getMatches memory) 0.

(** [partTwo] calls itself on a suffix of [memory]; [fuel] bounds the depth
    of the calls and [None] means it ran out. *)
Fixpoint partTwo_fuel (fuel : nat) (memory : list ascii) (enabled : bool)
  : option Z :=
  match fuel with
  | O => None
  | S fuel' =>
      if enabled then
        if strings.Contains memory (str "don't()") then
          let i := strings.Index memory (str "don't") in
          rest ← partTwo_fuel fuel' (slice_from memory i) false;
          Some (GoInt.add (partOne (slice_to memory i)) rest)
        else Some (partOne memory)
      else
        if strings.Contains memory (str "do()") then
          let i := strings.Index memory (str "do()") in
          partTwo_fuel fuel' (slice_from memory i) true
        else Some 0
  end.

Definition partTwo (memory : list ascii) (enabled : bool) : option Z :=
  partTwo_fuel (3 * length memory + 3) memory enabled.

(** *** The scan the specification describes *)

(** A single pass from left to right that carries the enabled flag and the
    sum: ["don't()"] clears the flag, ["do()"] sets it, and a match of
    [mul(X,Y)] adds what [partOne] adds for it when the flag is set. *)
Fixpoint toggle_scan_fuel (fuel : nat) (s : list ascii) (enabled : bool)
  (sum : Z) : Z :=
  match fuel with
  | O => sum
  | S fuel' =>
      match s with
      | [] => sum
      | _ :: rest =>
          if strings.HasPrefix s (str "don't()") then
            toggle_scan_fuel fuel' rest false sum
          else if strings.HasPrefix s (str "do()") then
            toggle_scan_fuel fuel' rest true sum
          else
            match match_mul s with
            | Some m =>
                toggle_scan_fuel fuel' m.2 enabled
                  (if enabled then partOne_step sum (m.1.1, m.1.2) else sum)
            | None => toggle_scan_fuel fuel' rest enabled sum
            end
      end
  end.

Definition toggle_scan (memory : list ascii) : Z :=
  toggle_scan_fuel (length memory) memory true 0.

(** *** The matches of [mul(X,Y)], stated on the text *)

Definition digits (x : list ascii) : Prop :=
  x <> [] /\ Forall (fun c => strconv.is_digit c = true) x.

(** A byte that is no digit, or the end of the text. *)
Definition ends_run (t : list ascii) : Prop :=
  match t with [] => True | c :: _ => strconv.is_digit c = false end.

(** The text of one instruction. *)
Definition mul_text (x y : list ascii) : list ascii :=
  str "mul(" ++ x ++ str "," ++ y ++ str ")".

(** [s] begins with an instruction. *)
Definition mul_at_head (s : list ascii) : Prop :=
  exists x y rest, digits x /\ digits y /\ s = mul_text x y ++ rest.

(** [ms] lists the operands of the non-overlapping occurrences of the pattern
    in [s], in order of appearance: none when no suffix of [s] begins with an
    instruction; otherwise the first instruction is the one before which no
    instruction begins, and the list goes on after its last byte. *)
Inductive occurrences : list ascii -> list (list ascii * list ascii) -> Prop :=
| occ_none s :
    (forall pre post, s = pre ++ post -> ~ mul_at_head post) ->
    occurrences s []
| occ_first pre x y rest ms :
    digits x -> digits y ->
    (forall p1 p2, pre = p1 ++ p2 -> p2 <> [] ->
                   ~ mul_at_head (p2 ++ mul_text x y ++ rest)) ->
    occurrences rest ms ->
    occurrences (pre ++ mul_text x y ++ rest) ((x, y) :: ms).

(** The value of a run of digits. *)
Definition value (x : list ascii) : Z :=
  fold_left (fun acc c => acc * 10 + strconv.digit_val c) x 0.

(** The products [X*Y], as integers, of the matches whose two operands fit
    an [int]. *)
Definition products (ms : list (list ascii * list ascii)) : list Z :=
  map (fun m => value m.1 * value m.2)
    (List.filter (fun m => (value m.1 <=? GoInt.maxInt) && (value m.2 <=? GoInt.maxInt)) ms).

Definition sumZ (l : list Z) : Z := fold_right Z.add 0 l.

(** The sum [partOne] would return were an [int] unbounded. *)
Definition total (memory : list ascii) : Z :=
  sumZ (products (getMatches memory)).

(** The bytes an instruction is made of. *)
Definition pattern_byte (c : ascii) : bool :=
  strconv.is_digit c || existsb (Ascii.eqb c) (str "mul(,)").

(** The example of the puzzle. *)
Definition example_memory : list ascii :=
  str "xmul(2,4)&mul[3,7]!^don't()_mul(5,5)+mul(32,64](mul(11,8)undo()?mul(8,5))".

(** The scan of the specification, from any state. *)
Definition toggle_from (s : list ascii) (enabled : bool) (sum : Z) : Z :=
  toggle_scan_fuel (length s) s enabled sum.

(** Every ["don't"] of the text is followed by ["()"]. *)
Definition no_bare_dont (memory : list ascii) : Prop :=
  forall pre post,
    memory = pre ++ post ->
    strings.HasPrefix post (str "don't") = true ->
    strings.HasPrefix post (str "don't()") = true.

(** The same, checked suffix by suffix. *)
Fixpoint no_bare_dontb (s : list ascii) : bool :=
  implb (strings.HasPrefix s (str "don't")) (strings.HasPrefix s (str "don't()"))
  && match s with [] => true | _ :: rest => no_bare_dontb rest end.

(** No occurrence of [substr] begins within [pre] in the text [pre ++ post]. *)
Definition none_before (substr pre post : list ascii) : Prop :=
  forall p1 p2,
    pre = p1 ++ p2 -> p2 <> [] -> strings.HasPrefix (p2 ++ post) substr = false.

(** The text ends, or goes on with a byte no instruction contains. *)
Definition ends_pattern (post : list ascii) : Prop :=
  match post with [] => True | c :: _ => pattern_byte c = false end.

(** [partOne] returns the sum of [X*Y] over all the occurrences. *)
Definition sums_every_match (memory : list ascii) : Prop :=
  forall ms,
    occurrences memory ms ->
    partOne memory = sumZ (map (fun m => value m.1 * value m.2) ms).

(** [partTwo] returns a sum between zero and the sum of [partOne]. *)
Definition partTwo_bounded (memory : list ascii) : Prop :=
  exists two, partTwo memory true = Some two /\ 0 <= two <= partOne memory.

(** The depth of the calls of [partTwo] is bounded by this measure. *)
Definition depth (memory : list ascii) (enabled : bool) : nat :=
  if enabled then
    3 * length memory + (if strings.HasPrefix memory (str "don't") then 2 else 0)
  else 3 * length memory + 1.

End Day03.

(** * Properties *)

(** ** Wrap-around *)
Module GoIntFacts.
Import GoInt.

Lemma wrap_in_range z : in_range (wrap z).
Proof.
  unfold in_range, wrap, minInt, maxInt.
  pose proof (Z.mod_pos_bound (z + 2 ^ 63) (2 ^ 64) ltac:(lia)). lia.
Qed.

Lemma wrap_small z : in_range z -> wrap z = z.
Proof.
  unfold in_range, wrap, minInt, maxInt. intros H.
  rewrite Z.mod_small by lia. lia.
Qed.

Lemma wrap_add_l a b : wrap (wrap a + b) = wrap (a + b).
Proof.
  unfold wrap.
  replace ((a + 2 ^ 63) mod 2 ^ 64 - 2 ^ 63 + b + 2 ^ 63)
    with ((a + 2 ^ 63) mod 2 ^ 64 + b) by lia.
  rewrite Zplus_mod_idemp_l. f_equal. f_equal. lia.
Qed.

Lemma wrap_add_r a b : wrap (a + wrap b) = wrap (a + b).
Proof. rewrite Z.add_comm, wrap_add_l. f_equal. lia. Qed.

Lemma add_wrap_wrap a b : add (wrap a) (wrap b) = wrap (a + b).
Proof. unfold add. now rewrite wrap_add_l, wrap_add_r. Qed.

Lemma wrap_opp_wrap x : wrap (- wrap x) = wrap (- x).
Proof.
  unfold wrap.
  replace (- ((x + 2 ^ 63) mod 2 ^ 64 - 2 ^ 63) + 2 ^ 63)
    with (2 ^ 64 - (x + 2 ^ 63) mod 2 ^ 64) by lia.
  rewrite Zminus_mod_idemp_r. f_equal. f_equal. lia.
Qed.

Lemma wrap_sub_l a b : wrap (wrap a - b) = wrap (a - b).
Proof.
  replace (wrap a - b) with (wrap a + - b) by lia.
  rewrite wrap_add_l. f_equal; lia.
Qed.

Lemma wrap_mul_r a b : wrap (a * wrap b) = wrap (a * b).
Proof.
  unfold wrap.
  replace (a * ((b + 2 ^ 63) mod 2 ^ 64 - 2 ^ 63) + 2 ^ 63)
    with (a * ((b + 2 ^ 63) mod 2 ^ 64) + (2 ^ 63 - a * 2 ^ 63)) by lia.
  rewrite <- Zplus_mod_idemp_l, Zmult_mod_idemp_r, Zplus_mod_idemp_l.
  f_equal. f_equal. lia.
Qed.

Lemma in_range_0 : in_range 0.
Proof. unfold in_range, minInt, maxInt. lia. Qed.

End GoIntFacts.

(** ** [strings.Fields] *)
Module stringsFacts.
Import strings.

(** The runes [range] yields: a rune of four bytes, U+00A0, and a surrogate
    half, which is no rune and is read byte by byte as U+FFFD. *)
Example range_string_runes :
  utf8.range_string
    (str "1" ++ bytes [240; 159; 152; 128] ++ bytes [194; 160]
     ++ bytes [237; 160; 128]) =
  [(0%nat, 49); (1%nat, 128512); (5%nat, 160);
   (7%nat, utf8.RuneError); (8%nat, utf8.RuneError); (9%nat, utf8.RuneError)].
Proof. reflexivity. Qed.

(** White space beyond ASCII separates fields: U+00A0 (bytes [C2 A0]),
    U+0085 ([C2 85]), U+2003 ([E2 80 83]) and U+3000 ([E3 80 80]) do, and a
    line of such runes only has no field.  A rune that is not white space
    (U+00E9, [C3 A9]; U+200B, [E2 80 8B]) and a byte that is no rune (a lone
    [A0] or [C2]) stay in their field. *)
Example Fields_unicode_space :
  Fields (str "1" ++ bytes [194; 160] ++ str "2") = [str "1"; str "2"]
  /\ Fields (str "1" ++ bytes [194; 133] ++ str "2") = [str "1"; str "2"]
  /\ Fields (str "1" ++ bytes [226; 128; 131] ++ str "2 3") =
     [str "1"; str "2"; str "3"]
  /\ Fields (bytes [227; 128; 128] ++ str "1" ++ bytes [227; 128; 128]) =
     [str "1"]
  /\ Fields (bytes [194; 160]) = []
  /\ Fields (bytes [194; 160] ++ str " " ++ bytes [226; 128; 168]) = []
  /\ Fields (str "1" ++ bytes [195; 169] ++ str "2") =
     [str "1" ++ bytes [195; 169] ++ str "2"]
  /\ Fields (str "1" ++ bytes [226; 128; 139] ++ str "2") =
     [str "1" ++ bytes [226; 128; 139] ++ str "2"]
  /\ Fields (str "1" ++ bytes [160] ++ str "2") =
     [str "1" ++ bytes [160] ++ str "2"]
  /\ Fields (str "1" ++ bytes [194] ++ str " 2") =
     [str "1" ++ bytes [194]; str "2"].
Proof. repeat split; reflexivity. Qed.

(** On ASCII lines the fields are the runs between blanks, tabs and the
    like. *)
Example Fields_ascii_space :
  Fields (str "  7 6   4") = [str "7"; str "6"; str "4"]
  /\ Fields (bytes [55; 9; 54; 13]) = [str "7"; str "6"]
  /\ Fields (str "") = []
  /\ Fields (str "   ") = [].
Proof. repeat split; reflexivity. Qed.

(** *** The two paths of [Fields] agree *)

Lemma byte_val_bounds c : 0 <= utf8.byte_val c < 256.
Proof.
  unfold utf8.byte_val. pose proof (nat_ascii_bounded c). lia.
Qed.

(** On an ASCII byte [unicode.IsSpace] is the table [asciiSpace]. *)
Lemma IsSpace_ascii c :
  ascii_byte c -> unicode.IsSpace (utf8.byte_val c) = asciiSpace c.
Proof.
  destruct c as [[] [] [] [] [] [] [] []]; intros H;
    solve [reflexivity | vm_compute in H; discriminate H].
Qed.

(** An ASCII string is ranged over byte by byte. *)
Lemma range_from_ascii s : forall i,
  Forall ascii_byte s ->
  utf8.range_from i 0 s = combine (seq i (length s)) (map utf8.byte_val s).
Proof.
  induction s as [|c rest IH]; intros i Hs; [reflexivity|].
  inversion Hs as [|? ? Hc Hrest]; subst.
  cbn [utf8.range_from length seq map combine].
  unfold utf8.decoderune.
  change (utf8.byte_at (c :: rest) 0) with (utf8.byte_val c).
  unfold ascii_byte in Hc.
  destruct (Z.ltb_spec (utf8.byte_val c) utf8.RuneSelf) as [_|Hge]; [|lia].
  cbn [Nat.sub]. now rewrite IH.
Qed.

(** The slice [whole[b:e]]. *)
Lemma FieldsFunc_ascii_loop whole : forall s pre spans start,
  whole = pre ++ s ->
  Forall ascii_byte s ->
  match start with Some b => (b < length pre)%nat | None => True end ->
  let cur := match start with Some b => rev (skipn b pre) | None => [] end in
  let slice := fun span : nat * nat =>
                 firstn (snd span - fst span) (skipn (fst span) whole) in
  let st := fold_left (FieldsFunc_step unicode.IsSpace)
              (combine (seq (length pre) (length s)) (map utf8.byte_val s))
              (spans, start) in
  map slice (match snd st with
             | Some b => fst st ++ [(b, length whole)]
             | None => fst st
             end) =
  map slice spans ++ fields_ascii cur s.
Proof.
  induction s as [|c rest IH]; intros pre spans start Hw Hs Hstart cur slice st.
  - subst st cur. cbn [length seq map combine fold_left fst snd fields_ascii].
    rewrite app_nil_r in Hw. subst pre.
    destruct start as [b|]; [|now rewrite app_nil_r].
    rewrite map_app. cbn [map]. f_equal.
    subst slice. cbn [fst snd].
    rewrite rev_involutive.
    assert (Hne : rev (skipn b whole) <> []).
    { intros E. apply (f_equal (@length _)) in E.
      rewrite length_rev, length_skipn in E. cbn in E. lia. }
    destruct (rev (skipn b whole)) as [|x l] eqn:E; [congruence|].
    f_equal.
    rewrite firstn_all2; [reflexivity|]. rewrite length_skipn. lia.
  - apply List.Forall_cons_iff in Hs as [Hc Hrest].
    assert (Hw' : whole = (pre ++ [c]) ++ rest) by (now rewrite <- app_assoc).
    assert (Hlen : length (pre ++ [c]) = S (length pre))
      by (rewrite length_app; cbn; lia).
    subst st. cbn [length seq map combine fold_left].
    assert (Hstep :
      FieldsFunc_step unicode.IsSpace (spans, start) (length pre, utf8.byte_val c) =
      if asciiSpace c then
        match start with
        | Some b => (spans ++ [(b, length pre)], None)
        | None => (spans, None)
        end
      else
        match start with
        | Some b => (spans, Some b)
        | None => (spans, Some (length pre))
        end)
      by (unfold FieldsFunc_step; now rewrite (IsSpace_ascii c Hc)).
    rewrite Hstep. clear Hstep. rewrite <- Hlen.
    subst cur. cbn [fields_ascii].
    destruct (asciiSpace c), start as [b|].
    + (* a space ends the field *)
      pose proof (IH (pre ++ [c]) (spans ++ [(b, length pre)]) None Hw' Hrest I)
        as H.
      cbv zeta in H. subst slice. rewrite H. clear H.
      rewrite map_app, <- app_assoc. cbn [map app fst snd]. f_equal.
      assert (Hcur : rev (skipn b pre) <> []).
      { intros E. apply (f_equal (@length _)) in E.
        rewrite length_rev, length_skipn in E. cbn in E. lia. }
      destruct (rev (skipn b pre)) as [|x l] eqn:E; [congruence|].
      rewrite <- E, rev_involutive. f_equal.
      rewrite Hw, skipn_app.
      replace (b - length pre)%nat with 0%nat by lia. cbn [skipn].
      rewrite firstn_app, length_skipn.
      replace (length pre - b - (length pre - b))%nat with 0%nat by lia.
      cbn [firstn]. rewrite app_nil_r.
      apply firstn_all2. rewrite length_skipn. lia.
    + (* a space between fields *)
      pose proof (IH (pre ++ [c]) spans None Hw' Hrest I) as H.
      cbv zeta in H. subst slice. now rewrite H.
    + (* a byte of the field being read *)
      assert (Hb : (b < length (pre ++ [c]))%nat) by lia.
      pose proof (IH (pre ++ [c]) spans (Some b) Hw' Hrest Hb) as H.
      cbv zeta in H. subst slice. rewrite H. clear H.
      rewrite skipn_app.
      replace (b - length pre)%nat with 0%nat by lia. cbn [skipn].
      now rewrite rev_app_distr.
    + (* the first byte of a field *)
      assert (Hb : (length pre < length (pre ++ [c]))%nat) by lia.
      pose proof (IH (pre ++ [c]) spans (Some (length pre)) Hw' Hrest Hb) as H.
      cbv zeta in H. subst slice. rewrite H. clear H.
      rewrite skipn_app, skipn_all, Nat.sub_diag. reflexivity.
Qed.

(** On an ASCII string [FieldsFunc] with [unicode.IsSpace] finds the fields
    of the ASCII path. *)
Lemma FieldsFunc_ascii s :
  Forall ascii_byte s -> FieldsFunc s unicode.IsSpace = fields_ascii [] s.
Proof.
  intros Hs. unfold FieldsFunc, utf8.range_string.
  rewrite (range_from_ascii s 0 Hs).
  pose proof (FieldsFunc_ascii_loop s s [] [] None eq_refl Hs I) as H.
  cbv zeta in H. cbn [length map app] in H. rewrite <- H.
  destruct (fold_left _ _ _) as [spans start]. reflexivity.
Qed.

Lemma lor_below_RuneSelf a b :
  0 <= a -> 0 <= b ->
  Z.lor a b < utf8.RuneSelf <-> a < utf8.RuneSelf /\ b < utf8.RuneSelf.
Proof.
  intros Ha Hb. change utf8.RuneSelf with (2 ^ 7).
  assert (Hl : 0 <= Z.lor a b) by (apply Z.lor_nonneg; auto).
  assert (E : forall x, 0 <= x -> x < 2 ^ 7 <-> Z.log2 x < 7 \/ x = 0).
  { intros x Hx. destruct (Z.eq_dec x 0) as [->|Hne].
    - split; [auto | intros _; reflexivity].
    - rewrite (Z.log2_lt_pow2 x 7) by lia. split; [auto | intros [H|H]; [exact H | lia]]. }
  destruct (Z.eq_dec a 0) as [->|Ha0].
  { rewrite Z.lor_0_l. split; [intros H; split; [reflexivity | exact H] | tauto]. }
  destruct (Z.eq_dec b 0) as [->|Hb0].
  { rewrite Z.lor_0_r. split; [intros H; split; [exact H | reflexivity] | tauto]. }
  assert (Hl0 : Z.lor a b <> 0) by (rewrite Z.lor_eq_0_iff; tauto).
  rewrite !(Z.log2_lt_pow2 _ 7) by lia.
  rewrite Z.log2_lor by assumption. lia.
Qed.

Lemma setBits_from s : forall bits,
  0 <= bits ->
  fold_left (fun bits c => Z.lor bits (utf8.byte_val c)) s bits < utf8.RuneSelf
  <-> bits < utf8.RuneSelf /\ Forall ascii_byte s.
Proof.
  induction s as [|c rest IH]; intros bits Hb; cbn [fold_left].
  - split; [intros H; split; [exact H | constructor] | tauto].
  - pose proof (byte_val_bounds c) as Hc.
    rewrite IH by (apply Z.lor_nonneg; lia).
    rewrite lor_below_RuneSelf by lia.
    rewrite List.Forall_cons_iff. unfold ascii_byte. tauto.
Qed.

(** [setBits] stays below [RuneSelf] exactly on the ASCII strings. *)
Lemma setBits_ascii s : setBits s < utf8.RuneSelf <-> Forall ascii_byte s.
Proof.
  unfold setBits. rewrite setBits_from by lia.
  split; [tauto | intros H; split; [reflexivity | exact H]].
Qed.

(** The ASCII path of [Fields] is a shortcut: on every string the fields are
    those [FieldsFunc] finds with [unicode.IsSpace]. *)
Lemma Fields_FieldsFunc s : Fields s = FieldsFunc s unicode.IsSpace.
Proof.
  unfold Fields.
  destruct (Z.leb_spec utf8.RuneSelf (setBits s)) as [_|H]; [reflexivity|].
  symmetry. now apply FieldsFunc_ascii, setBits_ascii.
Qed.

End stringsFacts.

(** ** The report safety checker *)
Module Day02Facts.
Import Day02.

(** The loop of [isSafe] only ever clears a flag: after the indices [idx] the
    flags are the initial ones, each cleared when some index is out of its
    interval. *)
Lemma isSafe_loop report idx flags :
  fold_left (isSafe_step report) idx flags =
  (fst flags && forallb (fun i => (1 <=? diff report i) && (diff report i <=? 3)) idx,
   snd flags && forallb (fun i => (-3 <=? diff report i) && (diff report i <=? -1)) idx).
Proof.
  revert flags. induction idx as [|i idx IH]; intros [inc dec]; simpl.
  - now rewrite !andb_true_r.
  - rewrite IH. unfold isSafe_step, diff. simpl.
    set (d := GoInt.sub _ _).
    f_equal.
    + destruct (d <? 1) eqn:E1, (3 <? d) eqn:E2, (1 <=? d) eqn:E3,
        (d <=? 3) eqn:E4; simpl; try lia; destruct inc; reflexivity.
    + destruct (d <? -3) eqn:E1, (-1 <? d) eqn:E2, (-3 <=? d) eqn:E3,
        (d <=? -1) eqn:E4; simpl; try lia; destruct dec; reflexivity.
Qed.

Lemma forallb_seq_from_1 (p : nat -> bool) n :
  forallb p (seq 1 (n - 1)) = true <-> forall i, (1 <= i < n)%nat -> p i = true.
Proof.
  rewrite forallb_forall. split.
  - intros H i Hi. apply H. apply in_seq. lia.
  - intros H i Hi. apply in_seq in Hi. apply H. lia.
Qed.

Lemma isSafe_differences report :
  isSafe report = true <-> increasing_safe report \/ decreasing_safe report.
Proof.
  unfold isSafe. rewrite isSafe_loop. simpl fst. simpl snd.
  rewrite orb_true_iff, !forallb_seq_from_1.
  unfold increasing_safe, decreasing_safe.
  split; (intros [H|H]; [left|right]; intros i Hi; specialize (H i Hi); lia).
Qed.

Lemma isSafe_short report : (length report <= 1)%nat -> isSafe report = true.
Proof.
  intros H. apply isSafe_differences. left. intros i Hi. lia.
Qed.

(** Where the subtraction does not overflow, [diff] is the difference of the
    integers. *)
Lemma diff_exact report i :
  GoInt.in_range (nth i report 0 - nth (i - 1) report 0) ->
  diff report i = nth i report 0 - nth (i - 1) report 0.
Proof. intros H. unfold diff, GoInt.sub. now apply GoIntFacts.wrap_small. Qed.

(** On reports whose elements are below 2^62 in absolute value no
    subtraction overflows, and safety reads on the differences of the
    integers. *)
Lemma isSafe_integer_differences report :
  Forall (fun x => Z.abs x < 2 ^ 62) report ->
  isSafe report = true <->
  (forall i, (1 <= i < length report)%nat ->
             1 <= nth i report 0 - nth (i - 1) report 0 <= 3)
  \/ (forall i, (1 <= i < length report)%nat ->
                -3 <= nth i report 0 - nth (i - 1) report 0 <= -1).
Proof.
  intros Hsmall. rewrite isSafe_differences.
  assert (Hd : forall i, (1 <= i < length report)%nat ->
                 diff report i = nth i report 0 - nth (i - 1) report 0).
  { intros i Hi. apply diff_exact.
    rewrite List.Forall_forall in Hsmall.
    assert (Hi1 : (i < length report)%nat) by lia.
    assert (Hi0 : (i - 1 < length report)%nat) by lia.
    pose proof (Hsmall _ (nth_In report 0 Hi1)).
    pose proof (Hsmall _ (nth_In report 0 Hi0)).
    unfold GoInt.in_range, GoInt.minInt, GoInt.maxInt. lia. }
  unfold increasing_safe, decreasing_safe.
  split; (intros [H|H]; [left|right]; intros i Hi; specialize (H i Hi);
          rewrite Hd in * by exact Hi; exact H).
Qed.

(** The reports the specification lists. *)
Lemma isSafe_examples :
  isSafe [7; 6; 4; 2; 1] = true
  /\ isSafe [1; 2; 7; 8; 9] = false
  /\ isSafe [1; 3; 2; 4; 5] = false
  /\ canBeSafe [1; 3; 2; 4; 5] = true
  /\ isSafe [5] = true.
Proof. repeat split; reflexivity. Qed.

Lemma diff_tail x report i :
  (1 <= i)%nat -> diff (x :: report) (S i) = diff report i.
Proof.
  intros Hi. unfold diff. destruct i as [|j]; [lia|].
  simpl. now rewrite Nat.sub_0_r.
Qed.

Lemma isSafe_tail x report : isSafe (x :: report) = true -> isSafe report = true.
Proof.
  rewrite !isSafe_differences.
  intros [H|H]; [left|right]; intros i Hi;
    rewrite <- (diff_tail x) by lia; apply H; simpl; lia.
Qed.

Lemma canBeSafe_from_exists report idx :
  canBeSafe_from report idx = true <->
  exists i, In i idx /\ isSafe (without report i) = true.
Proof.
  induction idx as [|i idx IH]; simpl.
  - split; [discriminate | intros (i & [] & _)].
  - destruct (isSafe (without report i)) eqn:E.
    + split; [exists i; auto | reflexivity].
    + rewrite IH. split.
      * intros (j & Hj & Hs). exists j; auto.
      * intros (j & [->|Hj] & Hs); [congruence | exists j; auto].
Qed.

Lemma canBeSafe_exists report :
  canBeSafe report = true <->
  exists i, (i < length report)%nat /\ isSafe (without report i) = true.
Proof.
  unfold canBeSafe. rewrite canBeSafe_from_exists.
  split; intros (i & Hi & Hs); exists i; split; auto;
    [apply in_seq in Hi | apply in_seq]; lia.
Qed.

(** C4, as stated, fails where a subtraction overflows: from the smallest
    [int] to the largest the difference is [2^64 - 1], which the program
    computes as [-1], and [isSafe] answers true. *)
Lemma isSafe_overflowing_difference :
  Forall GoInt.in_range [GoInt.minInt; GoInt.maxInt]
  /\ isSafe [GoInt.minInt; GoInt.maxInt] = true
  /\ difference [GoInt.minInt; GoInt.maxInt] 1 = 2 ^ 64 - 1
  /\ ~ safe_iff_differences [GoInt.minInt; GoInt.maxInt].
Proof.
  split; [|split; [|split]].
  - repeat constructor; vm_compute; congruence.
  - reflexivity.
  - reflexivity.
  - unfold safe_iff_differences. intros [H _].
    assert (Hi : (1 <= 1 < length [GoInt.minInt; GoInt.maxInt])%nat)
      by (simpl; lia).
    destruct (H eq_refl) as [Hd|Hd]; specialize (Hd 1%nat Hi);
      change (difference [GoInt.minInt; GoInt.maxInt] 1) with (2 ^ 64 - 1) in Hd;
      lia.
Qed.

(** C4, amended: on a report none of whose consecutive differences
    [report[i] - report[i-1]] overflows, [isSafe] answers true exactly when
    every such difference, taken in the integers, is in [1,3], or every one
    is in [-3,-1]; so a report of at most one element is safe. *)
Theorem isSafe_iff_integer_differences_in_interval report :
  no_overflow report ->
  safe_iff_differences report
  /\ ((length report <= 1)%nat -> isSafe report = true).
Proof.
  intros Hno. split; [|apply isSafe_short].
  unfold safe_iff_differences. rewrite isSafe_differences.
  assert (Hd : forall i, (1 <= i < length report)%nat ->
                 diff report i = difference report i).
  { intros i Hi. apply diff_exact. exact (Hno i Hi). }
  unfold increasing_safe, decreasing_safe, differences_within.
  split; (intros [H|H]; [left|right]; intros i Hi; specialize (H i Hi);
          rewrite Hd in * by exact Hi; exact H).
Qed.

(** The amended C4 on a report of the puzzle, which is safe. *)
Lemma isSafe_iff_integer_differences_in_interval_witness :
  no_overflow [7; 6; 4; 2; 1]
  /\ (safe_iff_differences [7; 6; 4; 2; 1]
      /\ ((length [7; 6; 4; 2; 1] <= 1)%nat -> isSafe [7; 6; 4; 2; 1] = true)).
Proof.
  assert (Hno : no_overflow [7; 6; 4; 2; 1]).
  { intros i Hi. simpl in Hi.
    assert (Hc : i = 1%nat \/ i = 2%nat \/ i = 3%nat \/ i = 4%nat) by lia.
    destruct Hc as [-> | [-> | [-> | ->]]]; vm_compute; split; congruence. }
  split; [exact Hno|].
  exact (isSafe_iff_integer_differences_in_interval [7; 6; 4; 2; 1] Hno).
Defined.

(** C1, as stated, fails on the empty report: it is safe, and [canBeSafe]
    finds no index to remove and answers false. *)
Lemma canBeSafe_empty_report : ~ safe_or_one_removed [].
Proof.
  unfold safe_or_one_removed. intros [_ H].
  assert (E : canBeSafe [] = true) by (apply H; left; reflexivity).
  discriminate E.
Qed.

(** C1, amended: on a report that is not empty, [canBeSafe] answers true
    exactly when [isSafe] holds of the report or of the report without one of
    its elements. *)
Theorem canBeSafe_nonempty report :
  report <> [] -> safe_or_one_removed report.
Proof.
  intros Hne. unfold safe_or_one_removed. rewrite canBeSafe_exists.
  split; [now right|].
  intros [Hs|H]; [|exact H].
  destruct report as [|x rest]; [congruence|].
  exists 0%nat. split; [simpl; lia|].
  unfold without. simpl. now apply isSafe_tail in Hs.
Qed.

(** The amended C1 on a report of the puzzle. *)
Lemma canBeSafe_nonempty_witness : safe_or_one_removed [1; 3; 2; 4; 5].
Proof. apply canBeSafe_nonempty. discriminate. Defined.

(** *** Reading the reports *)

Lemma parse_fields_acc fields report :
  parse_fields fields report =
  match parse_fields fields [] with
  | inl err => inl err
  | inr values => inr (report ++ values)
  end.
Proof.
  revert report. induction fields as [|field rest IH]; intros report; simpl.
  - now rewrite app_nil_r.
  - destruct (strconv.Atoi field) as [err|value]; [reflexivity|].
    rewrite (IH (report ++ [value])), (IH [value]).
    destruct (parse_fields rest []); [reflexivity|].
    now rewrite <- app_assoc.
Qed.

Lemma parse_fields_ok fields report :
  parse_fields fields [] = inr report <->
  Forall2 (fun field value => strconv.Atoi field = inr value) fields report.
Proof.
  revert report. induction fields as [|field rest IH]; intros report; simpl.
  - split.
    + intros [= <-]. constructor.
    + intros H. inversion H. reflexivity.
  - destruct (strconv.Atoi field) as [err|value] eqn:E.
    + split; [discriminate|]. intros H. inversion H; subst. congruence.
    + rewrite parse_fields_acc.
      destruct (parse_fields rest []) as [err|values] eqn:Er.
      * split; [discriminate|]. intros H. inversion H; subst.
        match goal with H' : Forall2 _ rest _ |- _ => apply IH in H' end.
        discriminate.
      * split.
        -- intros [= <-]. constructor; [exact E | now apply IH].
        -- intros H. inversion H; subst.
           match goal with H' : Forall2 _ rest _ |- _ => apply IH in H' end.
           simpl. congruence.
Qed.

Lemma parse_fields_err fields err :
  parse_fields fields [] = inl err ->
  exists field, In field fields /\ strconv.Atoi field = inl err.
Proof.
  induction fields as [|field rest IH]; simpl; [discriminate|].
  destruct (strconv.Atoi field) as [err'|value] eqn:E.
  - intros [= <-]. exists field. auto.
  - rewrite parse_fields_acc.
    destruct (parse_fields rest []) as [err'|values]; [|discriminate].
    intros [= <-]. destruct (IH eq_refl) as (f & Hf & Hs). exists f. auto.
Qed.

Lemma parse_fields_bad fields field err :
  In field fields -> strconv.Atoi field = inl err ->
  exists err', parse_fields fields [] = inl err'.
Proof.
  induction fields as [|f rest IH]; simpl; [intros []|].
  intros [->|Hin] E.
  - rewrite E. eauto.
  - destruct (strconv.Atoi f); [eauto|]. rewrite parse_fields_acc.
    destruct (IH Hin E) as [err' ->]. eauto.
Qed.

Lemma scan_lines_acc lines reports :
  scan_lines lines reports =
  match scan_lines lines [] with
  | inl p => inl p
  | inr more => inr (reports ++ more)
  end.
Proof.
  revert reports. induction lines as [|line rest IH]; intros reports; simpl.
  - now rewrite app_nil_r.
  - destruct (parse_fields (strings.Fields line) []) as [err|report];
      [reflexivity|].
    rewrite (IH (reports ++ [report])), (IH [report]).
    destruct (scan_lines rest []); [reflexivity|].
    now rewrite <- app_assoc.
Qed.

Lemma scan_lines_ok lines reports :
  scan_lines lines [] = inr reports <-> Forall2 parsed_line lines reports.
Proof.
  revert reports. induction lines as [|line rest IH]; intros reports; simpl.
  - split.
    + intros [= <-]. constructor.
    + intros H. inversion H. reflexivity.
  - destruct (parse_fields (strings.Fields line) []) as [err|report] eqn:E.
    + split; [discriminate|]. intros H. inversion H; subst.
      match goal with H' : parsed_line line _ |- _ =>
        apply parse_fields_ok in H' end.
      congruence.
    + rewrite scan_lines_acc. apply parse_fields_ok in E.
      destruct (scan_lines rest []) as [p|more] eqn:Er.
      * split; [discriminate|]. intros H. inversion H; subst.
        match goal with H' : Forall2 _ rest _ |- _ => apply IH in H' end.
        discriminate.
      * split.
        -- intros [= <-]. constructor; [exact E | now apply IH].
        -- intros H. inversion H; subst.
           match goal with H' : Forall2 _ rest _ |- _ => apply IH in H' end.
           match goal with H' : parsed_line line _ |- _ =>
             apply parse_fields_ok in H' end.
           apply parse_fields_ok in E. simpl. congruence.
Qed.

Lemma scan_lines_panic lines p :
  scan_lines lines [] = inl p ->
  exists line field err,
    p = PanicAtoi err /\ In line lines /\ In field (strings.Fields line) /\
    strconv.Atoi field = inl err.
Proof.
  induction lines as [|line rest IH]; simpl; [discriminate|].
  destruct (parse_fields (strings.Fields line) []) as [err|report] eqn:E.
  - intros [= <-]. apply parse_fields_err in E as (field & Hf & Hs).
    exists line, field, err. auto.
  - rewrite scan_lines_acc.
    destruct (scan_lines rest []) as [p'|more]; [|discriminate].
    intros [= <-]. destruct (IH eq_refl) as (l & f & err & -> & Hl & Hf & Hs).
    exists l, f, err. auto.
Qed.

Lemma scan_lines_bad lines :
  bad_field lines -> exists err, scan_lines lines [] = inl (PanicAtoi err).
Proof.
  intros (line & field & err & Hl & Hf & Hs).
  induction lines as [|l rest IH]; simpl; [destruct Hl|].
  destruct (parse_fields (strings.Fields l) []) as [err'|report] eqn:E;
    [eauto|].
  rewrite scan_lines_acc.
  destruct Hl as [->|Hl].
  - destruct (parse_fields_bad _ _ _ Hf Hs) as [err' E']. congruence.
  - destruct (IH Hl) as [err' ->]. eauto.
Qed.

(** A line [1<U+00A0>2] holds the fields [1] and [2], and a line of U+00A0
    alone holds none. *)
Example readPuzzleInput_unicode_space :
  readPuzzleInput
    (Opened [str "1" ++ bytes [194; 160] ++ str "2"; bytes [194; 160]] false) =
  inr [[1; 2]; []].
Proof. reflexivity. Qed.

(** C8: once the file is open, [readPuzzleInput] panics on a failed
    conversion exactly when some field of some line is not an integer, the
    panic carries the error of such a field, and without such a field the
    reports of all the lines are returned (unless the scanner itself reports
    a read error). *)
Theorem readPuzzleInput_fatal_iff_bad_field lines scanErr :
  ((exists err, readPuzzleInput (Opened lines scanErr) = inl (PanicAtoi err))
   <-> bad_field lines)
  /\ (forall err,
        readPuzzleInput (Opened lines scanErr) = inl (PanicAtoi err) ->
        exists line field,
          In line lines /\ In field (strings.Fields line) /\
          strconv.Atoi field = inl err)
  /\ (~ bad_field lines ->
      exists reports,
        Forall2 parsed_line lines reports /\
        readPuzzleInput (Opened lines scanErr) =
        if scanErr then inl PanicScan else inr reports).
Proof.
  unfold readPuzzleInput.
  destruct (scan_lines lines []) as [p|reports] eqn:E.
  - destruct (scan_lines_panic _ _ E) as (line & field & err & -> & Hl & Hf & Hs).
    assert (Hbad : bad_field lines) by (exists line, field, err; auto).
    repeat split.
    + intros _. exact Hbad.
    + intros _. eauto.
    + intros err' [= <-]. eauto.
    + intros H. contradiction.
  - repeat split.
    + intros [err H]. destruct scanErr; discriminate.
    + intros Hbad. apply scan_lines_bad in Hbad as [err Hbad]. congruence.
    + intros err H. destruct scanErr; discriminate.
    + intros _. exists reports. split; [now apply scan_lines_ok | reflexivity].
Qed.

(** C7, as stated, fails: an empty line is not skipped, it yields an empty
    report. *)
Lemma readPuzzleInput_empty_line :
  ~ no_empty_report (Opened [str "7 6 4 2 1"; str ""; str "1 2 7 8 9"] false).
Proof.
  intros H. specialize (H _ eq_refl).
  inversion H as [|? ? _ H']. inversion H' as [|? ? Hne _]. now apply Hne.
Qed.

(** C7, amended: every line yields one report, which holds the integers of
    the fields of that line in order; a line without a field yields the empty
    report. *)
Theorem readPuzzleInput_one_report_per_line lines scanErr reports :
  readPuzzleInput (Opened lines scanErr) = inr reports ->
  Forall2 parsed_line lines reports.
Proof.
  unfold readPuzzleInput.
  destruct (scan_lines lines []) as [p|rs] eqn:E; [discriminate|].
  destruct scanErr; [discriminate|]. intros [= <-]. now apply scan_lines_ok.
Qed.

(** The amended C7 on three lines, the second one empty. *)
Lemma readPuzzleInput_one_report_per_line_witness :
  Forall2 parsed_line
    [str "7 6 4 2 1"; str ""; str "1 2 7 8 9"]
    [[7; 6; 4; 2; 1]; []; [1; 2; 7; 8; 9]].
Proof.
  apply (readPuzzleInput_one_report_per_line _ false). reflexivity.
Defined.

(** *** Symmetry and segments *)

Lemma interval_opp x :
  1 <= GoInt.wrap x <= 3 <-> -3 <= GoInt.wrap (- x) <= -1.
Proof.
  assert (Hdir : forall y, 1 <= GoInt.wrap y <= 3 ->
                           GoInt.wrap (- y) = - GoInt.wrap y).
  { intros y Hy. rewrite <- GoIntFacts.wrap_opp_wrap.
    apply GoIntFacts.wrap_small.
    unfold GoInt.in_range, GoInt.minInt, GoInt.maxInt. lia. }
  assert (Hinv : forall y, -3 <= GoInt.wrap y <= -1 ->
                           GoInt.wrap (- y) = - GoInt.wrap y).
  { intros y Hy. rewrite <- GoIntFacts.wrap_opp_wrap.
    apply GoIntFacts.wrap_small.
    unfold GoInt.in_range, GoInt.minInt, GoInt.maxInt. lia. }
  split; intros H.
  - rewrite (Hdir x H). lia.
  - pose proof (Hinv (- x) H) as E. rewrite Z.opp_involutive in E. lia.
Qed.

Lemma diff_rev report i :
  (1 <= i < length report)%nat ->
  diff (rev report) i =
  GoInt.wrap (- (nth (length report - i) report 0
                 - nth (length report - i - 1) report 0)).
Proof.
  intros Hi. unfold diff, GoInt.sub.
  rewrite !rev_nth by lia. f_equal.
  replace (length report - S i)%nat with (length report - i - 1)%nat by lia.
  replace (length report - S (i - 1))%nat with (length report - i)%nat by lia.
  lia.
Qed.

Lemma increasing_rev report :
  increasing_safe (rev report) <-> decreasing_safe report.
Proof.
  unfold increasing_safe, decreasing_safe. rewrite length_rev. split.
  - intros H i Hi. specialize (H (length report - i)%nat ltac:(lia)).
    rewrite diff_rev in H by lia.
    replace (length report - (length report - i))%nat with i in H by lia.
    apply interval_opp in H. rewrite Z.opp_involutive in H. exact H.
  - intros H i Hi. rewrite diff_rev by lia.
    specialize (H (length report - i)%nat ltac:(lia)).
    apply interval_opp. rewrite Z.opp_involutive. exact H.
Qed.

Lemma decreasing_rev report :
  decreasing_safe (rev report) <-> increasing_safe report.
Proof.
  rewrite <- (rev_involutive report) at 2. symmetry. apply increasing_rev.
Qed.

Lemma bool_eq_iff (a b : bool) : (a = true <-> b = true) -> a = b.
Proof. destruct a, b; intros [H1 H2]; auto; symmetry; auto. Qed.

(** Read backwards, a report is as safe as it was: the two flags of [isSafe]
    trade places. *)
Lemma isSafe_rev report : isSafe (rev report) = isSafe report.
Proof.
  apply bool_eq_iff. rewrite !isSafe_differences.
  rewrite increasing_rev, decreasing_rev. tauto.
Qed.

Lemma diff_app_l a b i :
  (1 <= i < length a)%nat -> diff (a ++ b) i = diff a i.
Proof.
  intros Hi. unfold diff. now rewrite !app_nth1 by lia.
Qed.

Lemma diff_app_r a b i :
  (1 <= i)%nat -> diff (a ++ b) (length a + i) = diff b i.
Proof.
  intros Hi. unfold diff. rewrite !app_nth2 by lia.
  replace (length a + i - length a)%nat with i by lia.
  replace (length a + i - 1 - length a)%nat with (i - 1)%nat by lia.
  reflexivity.
Qed.

(** X2: every contiguous segment of a safe report is safe. *)
Theorem isSafe_segment before segment after :
  isSafe (before ++ segment ++ after) = true -> isSafe segment = true.
Proof.
  rewrite !isSafe_differences.
  intros [H|H]; [left|right]; intros i Hi;
    rewrite <- (diff_app_l segment after) by lia;
    rewrite <- (diff_app_r before) by lia;
    apply H; rewrite !length_app; lia.
Qed.

(** X2 on a report of the puzzle. *)
Lemma isSafe_segment_witness :
  isSafe ([7; 6] ++ [4; 2] ++ [1]) = true /\ isSafe [4; 2] = true.
Proof.
  assert (H : isSafe ([7; 6] ++ [4; 2] ++ [1]) = true) by reflexivity.
  split; [exact H | exact (isSafe_segment _ _ _ H)].
Defined.

Lemma without_split report i :
  without report i = firstn i report ++ skipn (S i) report.
Proof. unfold without. now rewrite Nat.add_1_r. Qed.

Lemma without_rev report i :
  (i < length report)%nat ->
  without (rev report) i = rev (without report (length report - 1 - i)).
Proof.
  intros Hi. rewrite !without_split, firstn_rev, skipn_rev, rev_app_distr.
  replace (length report - i)%nat with (S (length report - 1 - i)) by lia.
  replace (length report - S i)%nat with (length report - 1 - i)%nat by lia.
  reflexivity.
Qed.

(** X1: reading a report backwards changes neither the answer of [isSafe]
    nor the answer of [canBeSafe]. *)
Theorem safety_of_reversed_report report :
  isSafe (rev report) = isSafe report
  /\ canBeSafe (rev report) = canBeSafe report.
Proof.
  split; [apply isSafe_rev|].
  apply bool_eq_iff. rewrite !canBeSafe_exists, length_rev.
  split; intros (i & Hi & Hs).
  - exists (length report - 1 - i)%nat. split; [lia|].
    rewrite without_rev, isSafe_rev in Hs by exact Hi. exact Hs.
  - exists (length report - 1 - i)%nat. split; [lia|].
    rewrite without_rev, isSafe_rev by lia.
    now replace (length report - 1 - (length report - 1 - i))%nat with i by lia.
Qed.

(** *** The two counts *)

(** X3: a report of one or two elements can always be made safe: what is
    left after a removal has at most one element. *)
Theorem canBeSafe_one_or_two report :
  (1 <= length report <= 2)%nat -> canBeSafe report = true.
Proof.
  intros Hlen. apply canBeSafe_exists. exists 0%nat. split; [lia|].
  apply isSafe_short. destruct report as [|x [|y [|z rest]]]; simpl in *; lia.
Qed.

(** X3 on a report that is not safe. *)
Lemma canBeSafe_one_or_two_witness :
  (1 <= length [1%Z; 9%Z] <= 2)%nat /\ canBeSafe [1; 9] = true.
Proof.
  assert (H : (1 <= length [1%Z; 9%Z] <= 2)%nat) by (simpl; lia).
  split; [exact H | exact (canBeSafe_one_or_two _ H)].
Defined.

Lemma isSafe_canBeSafe report :
  isSafe report = true -> is_empty report = false -> canBeSafe report = true.
Proof.
  intros Hs Hne. destruct report as [|x rest]; [discriminate|].
  apply canBeSafe_exists. exists 0%nat. split; [simpl; lia|].
  unfold without. simpl. now apply isSafe_tail in Hs.
Qed.

Lemma filter_length_le {A} (p : A -> bool) l :
  (length (List.filter p l) <= length l)%nat.
Proof.
  induction l as [|x l IH]; simpl; [lia|]. destruct (p x); simpl; lia.
Qed.

Lemma count_if_filter p reports : forall num_safe,
  0 <= num_safe ->
  num_safe + Z.of_nat (length reports) <= GoInt.maxInt ->
  count_if p reports num_safe =
  num_safe + Z.of_nat (length (List.filter p reports)).
Proof.
  induction reports as [|report rest IH]; intros num_safe H0 Hmax;
    cbn [count_if List.filter length].
  - lia.
  - cbn [length] in Hmax. destruct (p report).
    + unfold GoInt.add. rewrite GoIntFacts.wrap_small
        by (unfold GoInt.in_range, GoInt.minInt, GoInt.maxInt in *; lia).
      rewrite IH by lia. cbn [length]. lia.
    + apply IH; lia.
Qed.

Lemma safe_counts reports :
  (length (List.filter isSafe reports)
   <= length (List.filter canBeSafe reports)
      + length (List.filter is_empty reports))%nat.
Proof.
  induction reports as [|report rest IH]; cbn [List.filter]; [simpl; lia|].
  destruct (isSafe report) eqn:Es.
  - destruct (is_empty report) eqn:Ee.
    + destruct (canBeSafe report); cbn [length]; lia.
    + rewrite (isSafe_canBeSafe report Es Ee). cbn [length]. lia.
  - destruct (canBeSafe report), (is_empty report); cbn [length]; lia.
Qed.

(** X4: on a list of reports whose length fits an [int], [partOne] is the
    number of reports [isSafe] accepts and [partTwo] the number [canBeSafe]
    accepts; the first exceeds the second by at most the number of empty
    reports. *)
Theorem partOne_partTwo_counts reports :
  Z.of_nat (length reports) <= GoInt.maxInt ->
  partOne reports = Z.of_nat (length (List.filter isSafe reports))
  /\ partTwo reports = Z.of_nat (length (List.filter canBeSafe reports))
  /\ partOne reports
     <= partTwo reports + Z.of_nat (length (List.filter is_empty reports)).
Proof.
  intros Hlen. unfold partOne, partTwo.
  rewrite !count_if_filter by lia.
  pose proof (safe_counts reports). repeat split; lia.
Qed.

(** X4 on three reports, one of them empty. *)
Lemma partOne_partTwo_counts_witness :
  partOne [[7; 6; 4; 2; 1]; []; [1; 3; 2; 4; 5]] = 2
  /\ partTwo [[7; 6; 4; 2; 1]; []; [1; 3; 2; 4; 5]] = 2
  /\ partOne [[7; 6; 4; 2; 1]; []; [1; 3; 2; 4; 5]]
     <= partTwo [[7; 6; 4; 2; 1]; []; [1; 3; 2; 4; 5]] + 1.
Proof.
  apply (partOne_partTwo_counts [[7; 6; 4; 2; 1]; []; [1; 3; 2; 4; 5]]).
  vm_compute. discriminate.
Defined.

Lemma parsed_blank lines reports :
  Forall2 parsed_line lines reports ->
  length reports = length lines
  /\ length (List.filter is_empty reports) = length (List.filter blank lines).
Proof.
  induction 1 as [|line report lines reports Hp _ [IH1 IH2]];
    cbn [List.filter length]; [auto|].
  split; [lia|].
  assert (Hb : blank line = is_empty report)
    by (unfold blank; unfold parsed_line in Hp; destruct Hp; reflexivity).
  rewrite Hb. destruct (is_empty report); cbn [length]; lia.
Qed.

(** X5: when [main] prints its two counts, each is between zero and the
    number of lines, and the first exceeds the second by at most the number
    of lines without a field. *)
Theorem main_counts lines scanErr one two :
  Z.of_nat (length lines) <= GoInt.maxInt ->
  main (Opened lines scanErr) = inr (one, two) ->
  0 <= one <= Z.of_nat (length lines)
  /\ 0 <= two <= Z.of_nat (length lines)
  /\ one <= two + Z.of_nat (length (List.filter blank lines)).
Proof.
  intros Hlen. unfold main, readPuzzleInput.
  destruct (scan_lines lines []) as [p|reports] eqn:E; [discriminate|].
  destruct scanErr; [discriminate|]. intros [= <- <-].
  apply scan_lines_ok, parsed_blank in E as [E1 E2].
  unfold partOne, partTwo. rewrite !count_if_filter by lia.
  pose proof (safe_counts reports).
  pose proof (filter_length_le isSafe reports).
  pose proof (filter_length_le canBeSafe reports).
  repeat split; lia.
Qed.

(** X5 on three lines, the second one empty: the counts are 2 and 1. *)
Lemma main_counts_witness :
  main (Opened [str "7 6 4 2 1"; str ""; str "1 2 7 8 9"] false) = inr (2, 1)
  /\ 0 <= 2 <= 3 /\ 0 <= 1 <= 3 /\ 2 <= 1 + 1.
Proof.
  split; [reflexivity|].
  apply (main_counts [str "7 6 4 2 1"; str ""; str "1 2 7 8 9"] false 2 1).
  - vm_compute. discriminate.
  - reflexivity.
Defined.

(** *** How far a safe report moves *)

Lemma steps_add_up report lo hi :
  (forall i, (1 <= i < length report)%nat ->
             lo <= nth i report 0 - nth (i - 1) report 0 <= hi) ->
  forall k i, (i + k < length report)%nat ->
    lo * Z.of_nat k <= nth (i + k) report 0 - nth i report 0 <= hi * Z.of_nat k.
Proof.
  intros Hstep. induction k as [|k IH]; intros i Hik.
  - rewrite Nat.add_0_r. lia.
  - specialize (IH i ltac:(lia)).
    specialize (Hstep (i + S k)%nat ltac:(lia)).
    replace (i + S k - 1)%nat with (i + k)%nat in Hstep by lia. lia.
Qed.

(** X19: in a safe report whose elements are below 2^62 in absolute value,
    two elements [k] places apart differ by at least [k] and at most [3k];
    so no value occurs twice. *)
Theorem isSafe_spread report i j :
  Forall (fun x => Z.abs x < 2 ^ 62) report ->
  isSafe report = true ->
  (i <= j < length report)%nat ->
  Z.of_nat (j - i) <= Z.abs (nth j report 0 - nth i report 0)
                   <= 3 * Z.of_nat (j - i).
Proof.
  intros Hsmall Hsafe Hij.
  apply (isSafe_integer_differences report Hsmall) in Hsafe.
  replace j with (i + (j - i))%nat at 2 3 by lia.
  destruct Hsafe as [H|H];
    pose proof (steps_add_up report _ _ H (j - i)%nat i ltac:(lia)); lia.
Qed.

(** X19 on a report of the puzzle, at its two ends. *)
Lemma isSafe_spread_witness :
  Z.of_nat (4 - 0) <= Z.abs (nth 4 [7; 6; 4; 2; 1] 0 - nth 0 [7; 6; 4; 2; 1] 0)
                   <= 3 * Z.of_nat (4 - 0).
Proof.
  apply isSafe_spread.
  - repeat (constructor; [reflexivity|]). constructor.
  - reflexivity.
  - simpl. lia.
Defined.

End Day02Facts.

(** ** The distance / similarity calculator, Go *)
Module Day01Facts.
Import Day01.

Lemma insert_length x l : length (sort.insert x l) = S (length l).
Proof.
  induction l as [|y rest IH]; simpl; [reflexivity|].
  destruct (x <=? y); simpl; congruence.
Qed.

Lemma Ints_length l : length (sort.Ints l) = length l.
Proof.
  induction l as [|x rest IH]; simpl; [reflexivity|].
  rewrite insert_length. congruence.
Qed.

(** The scanning loop appends to [left] and [right] together, and prints
    nothing but invalid fields. *)
Lemma scan_lines_invariant lines : forall left right out,
  length left = length right ->
  ~ In MismatchedLengths out ->
  length (scan_lines lines left right out).1.1 =
  length (scan_lines lines left right out).1.2
  /\ ~ In MismatchedLengths (scan_lines lines left right out).2.
Proof.
  induction lines as [|line rest IH]; intros left right out Hlen Hout;
    cbn [scan_lines].
  - auto.
  - assert (Hmsg : forall part, ~ In MismatchedLengths (out ++ [InvalidInput part])).
    { intros part Hin. apply in_app_or in Hin as [Hin|[Hin|[]]];
        [contradiction | discriminate]. }
    destruct (2 <=? length (strings.Fields line))%nat; [|now apply IH].
    destruct (strconv.Atoi (nth 0 (strings.Fields line) [])); [now apply IH|].
    destruct (strconv.Atoi (nth 1 (strings.Fields line) [])); [now apply IH|].
    apply IH; [|assumption]. rewrite !length_app. simpl. lia.
Qed.

Lemma partOne_loop_total left right idx :
  (forall i, In i idx -> (i < length left)%nat /\ (i < length right)%nat) ->
  forall sum, exists v,
    fold_left (partOne_step left right) idx (Some sum) = Some v.
Proof.
  induction idx as [|i idx IH]; intros Hidx sum; cbn [fold_left]; [eauto|].
  destruct (Hidx i (or_introl eq_refl)) as [Hl Hr].
  destruct (lookup_lt_is_Some_2 left i Hl) as [l El].
  destruct (lookup_lt_is_Some_2 right i Hr) as [r Er].
  replace (partOne_step left right (Some sum) i)
    with (Some (GoInt.add sum
                  (GoInt.of_float64 (Z.abs (GoInt.float64 (GoInt.sub l r))))))
    by (unfold partOne_step; cbn; now rewrite El, Er).
  apply IH. intros j Hj. apply Hidx. now right.
Qed.

Lemma partOne_total left right :
  (length left <= length right)%nat -> exists v, partOne left right = Some v.
Proof.
  intros H. apply partOne_loop_total. intros i Hi. apply in_seq in Hi. lia.
Qed.

(** C9: the two slices [readPuzzleInput] returns have the same length, the
    warning about mismatched lengths is never printed, and [partOne] reads
    [right[i]] within bounds, so it returns a sum. *)
Theorem readPuzzleInput_equal_lengths f left right out :
  readPuzzleInput f = inr (left, right, out) ->
  length left = length right
  /\ ~ In MismatchedLengths out
  /\ exists sum, partOne left right = Some sum.
Proof.
  destruct f as [|lines scanErr]; simpl; [discriminate|].
  destruct (scan_lines_invariant lines [] [] [] eq_refl (fun H => H))
    as [Hlen Hout].
  destruct scanErr; [discriminate|].
  rewrite !Ints_length.
  destruct (Nat.eqb_spec (length (scan_lines lines [] [] []).1.1)
              (length (scan_lines lines [] [] []).1.2)) as [E|E];
    [|contradiction].
  simpl. intros [= <- <- <-].
  rewrite !Ints_length. repeat split; [assumption..|].
  apply partOne_total. rewrite !Ints_length. lia.
Qed.

(** C9 on the example of the puzzle. *)
Lemma readPuzzleInput_equal_lengths_witness :
  length [1; 2; 3; 3; 3; 4] = length [3; 3; 3; 4; 5; 9]
  /\ ~ In MismatchedLengths []
  /\ exists sum, partOne [1; 2; 3; 3; 3; 4] [3; 3; 3; 4; 5; 9] = Some sum.
Proof.
  apply (readPuzzleInput_equal_lengths
           (Opened (map str ["3   4"; "4   3"; "2   5"; "1   3"; "3   9"; "3   3"]%string)
              false)).
  reflexivity.
Defined.

(** *** [sort.Ints] sorts *)

Lemma insert_perm x l : Permutation (x :: l) (sort.insert x l).
Proof.
  induction l as [|y rest IH]; simpl; [reflexivity|].
  destruct (x <=? y); [reflexivity|].
  rewrite perm_swap. now apply perm_skip.
Qed.

Lemma Ints_perm l : Permutation l (sort.Ints l).
Proof.
  induction l as [|x rest IH]; simpl; [reflexivity|].
  rewrite <- insert_perm. now apply perm_skip.
Qed.

Lemma insert_sorted x l : Sorted Z.le l -> Sorted Z.le (sort.insert x l).
Proof.
  induction l as [|y rest IH]; simpl; intros Hs.
  - repeat constructor.
  - destruct (Z.leb_spec x y) as [Hxy|Hxy].
    + constructor; [assumption|]. constructor. assumption.
    + inversion Hs as [|? ? Hrest Hhd]; subst.
      constructor; [now apply IH|].
      destruct rest as [|z rest']; simpl.
      * constructor. lia.
      * inversion Hhd; subst. destruct (x <=? z); constructor; lia.
Qed.

Lemma Ints_sorted l : Sorted Z.le (sort.Ints l).
Proof.
  induction l as [|x rest IH]; simpl; [constructor | now apply insert_sorted].
Qed.

(** *** Part 1 within the range of exact doubles *)

Lemma term_exact l r :
  small l -> small r ->
  GoInt.of_float64 (Z.abs (GoInt.float64 (GoInt.sub l r))) = Z.abs (l - r).
Proof.
  unfold small. intros Hl Hr.
  assert (Hd : Z.abs (l - r) < 2 ^ 53) by lia.
  unfold GoInt.sub. rewrite GoIntFacts.wrap_small
    by (unfold GoInt.in_range, GoInt.minInt, GoInt.maxInt; lia).
  unfold GoInt.float64.
  destruct (Z.ltb_spec (Z.abs (l - r)) (2 ^ 53)) as [_|H]; [|lia].
  unfold GoInt.of_float64, GoInt.minInt, GoInt.maxInt.
  destruct (Z.leb_spec (- 2 ^ 63) (Z.abs (l - r))) as [_|H]; [|lia].
  destruct (Z.leb_spec (Z.abs (l - r)) (2 ^ 63 - 1)) as [_|H]; [|lia].
  reflexivity.
Qed.

(** The loop of [partOne] from index [length doneL] on, the elements before
    it already summed into [sum]. *)
Lemma partOne_loop_exact left right : forall doneL doneR sum,
  length doneL = length doneR ->
  length left = length right ->
  Forall small left -> Forall small right ->
  GoInt.in_range sum ->
  fold_left (partOne_step (doneL ++ left) (doneR ++ right))
    (seq (length doneL) (length left)) (Some sum) =
  Some (GoInt.wrap (sum + sumZ (map (fun p => Z.abs (p.1 - p.2))
                                  (combine left right)))).
Proof.
  revert right. induction left as [|l left IH]; intros [|r right];
    intros doneL doneR sum Hdone Hlen Hl Hr Hsum; try discriminate.
  - simpl. now rewrite Z.add_0_r, GoIntFacts.wrap_small.
  - inversion Hl as [|? ? Hl1 Hl2]; inversion Hr as [|? ? Hr1 Hr2]; subst.
    cbn [length seq fold_left].
    replace (partOne_step (doneL ++ l :: left) (doneR ++ r :: right)
               (Some sum) (length doneL))
      with (Some (GoInt.add sum (Z.abs (l - r)))).
    + replace (doneL ++ l :: left) with ((doneL ++ [l]) ++ left)
        by now rewrite <- app_assoc.
      replace (doneR ++ r :: right) with ((doneR ++ [r]) ++ right)
        by now rewrite <- app_assoc.
      replace (S (length doneL)) with (length (doneL ++ [l]))
        by (rewrite length_app; simpl; lia).
      rewrite IH; try assumption.
      * unfold GoInt.add. rewrite GoIntFacts.wrap_add_l.
        f_equal. f_equal. simpl. lia.
      * rewrite !length_app. simpl. lia.
      * simpl in Hlen. lia.
      * apply GoIntFacts.wrap_in_range.
    + unfold partOne_step. cbn.
      rewrite (list_lookup_middle doneL left l) by reflexivity.
      rewrite (list_lookup_middle doneR right r) by exact Hdone.
      cbn. now rewrite term_exact.
Qed.

Lemma partOne_exact left right :
  length left = length right ->
  Forall small left -> Forall small right ->
  partOne left right =
  Some (GoInt.wrap (sumZ (map (fun p => Z.abs (p.1 - p.2)) (combine left right)))).
Proof.
  intros Hlen Hl Hr.
  apply (partOne_loop_exact left right [] [] 0 eq_refl Hlen Hl Hr).
  unfold GoInt.in_range, GoInt.minInt, GoInt.maxInt. lia.
Qed.

(** X12: Part 1 of the Go program: on columns of equal length whose elements are
    below 2^52 in absolute value, sorting and [partOne] yield the sum of the
    distances between the elements of equal rank (wrapped to an [int]). *)
Lemma partOne_sorted_distance left right :
  length left = length right ->
  Forall small left -> Forall small right ->
  partOne (sort.Ints left) (sort.Ints right) =
  Some (GoInt.wrap (distance left right)).
Proof.
  intros Hlen Hl Hr. unfold distance. apply partOne_exact.
  - now rewrite !Ints_length.
  - eapply Permutation_Forall; [apply Ints_perm | exact Hl].
  - eapply Permutation_Forall; [apply Ints_perm | exact Hr].
Qed.

(** C5: on the example of the puzzle, whose columns are [3,4,2,1,3,3] and
    [4,3,5,3,9,3], the Go program reads the two columns sorted, [partOne]
    returns 11 and [partTwo] 31 on them, and the JavaScript functions return
    11 and 31 on the fields of the two columns. *)
Theorem example_answers :
  readPuzzleInput (Opened example_lines false) =
    inr ([1; 2; 3; 3; 3; 4], [3; 3; 3; 4; 5; 9], [])
  /\ sort.Ints [3; 4; 2; 1; 3; 3] = [1; 2; 3; 3; 3; 4]
  /\ sort.Ints [4; 3; 5; 3; 9; 3] = [3; 3; 3; 4; 5; 9]
  /\ partOne [1; 2; 3; 3; 3; 4] [3; 3; 3; 4; 5; 9] = Some 11
  /\ partTwo [1; 2; 3; 3; 3; 4] [3; 3; 3; 4; 5; 9] = 31
  /\ partTwo [3; 4; 2; 1; 3; 3] [4; 3; 5; 3; 9; 3] = 31
  /\ main (Opened example_lines false) = inr (11, 31)
  /\ Day01JS.answers (map str ["3"; "4"; "2"; "1"; "3"; "3"]%string)
       (map str ["4"; "3"; "5"; "3"; "9"; "3"]%string) = (Some 11, Some 31).
Proof.
  repeat split; vm_compute; reflexivity.
Qed.

(** C3 at the columns [10, 9] and [1, 20]: the sum of the distances between
    the elements of equal rank is 18, which the Go program prints, while the
    JavaScript [partOne], whose [sort] orders the fields as strings, returns
    20. *)
Theorem js_partOne_sorts_fields_as_strings :
  distance [10; 9] [1; 20] = 18
  /\ main (Opened (map str ["10   1"; "9   20"]%string) false) = inr (18, 0)
  /\ Day01JS.sort (map str ["10"; "9"]%string) = map str ["10"; "9"]%string
  /\ Day01JS.sort (map str ["1"; "20"]%string) = map str ["1"; "20"]%string
  /\ (Day01JS.partOne (map str ["10"; "9"]%string)
        (map str ["1"; "20"]%string)).1 = Some 20.
Proof.
  repeat split; vm_compute; reflexivity.
Qed.

(** *** The bounds of [partOne] *)

Lemma partOne_loop_none left right idx :
  fold_left (partOne_step left right) idx None = None.
Proof. induction idx as [|i idx IH]; [reflexivity | exact IH]. Qed.

Lemma partOne_loop_panics left right idx : forall acc,
  (exists i, In i idx /\ right !! i = None) ->
  fold_left (partOne_step left right) idx acc = None.
Proof.
  induction idx as [|i idx IH]; intros acc (j & Hj & Hr); [destruct Hj|].
  cbn [fold_left]. destruct Hj as [->|Hj].
  - replace (partOne_step left right acc j) with (@None Z).
    + apply partOne_loop_none.
    + unfold partOne_step. rewrite Hr.
      destruct acc as [sum|]; [|reflexivity]. cbn.
      destruct (left !! j); reflexivity.
  - apply IH. eauto.
Qed.

Lemma partOne_loop_ext left right right' idx : forall acc,
  (forall i, In i idx -> right !! i = right' !! i) ->
  fold_left (partOne_step left right) idx acc =
  fold_left (partOne_step left right') idx acc.
Proof.
  induction idx as [|i idx IH]; intros acc H; [reflexivity|].
  cbn [fold_left].
  replace (partOne_step left right' acc i) with (partOne_step left right acc i).
  - apply IH. intros j Hj. apply H. now right.
  - unfold partOne_step. now rewrite (H i (or_introl eq_refl)).
Qed.

(** X6: [partOne] panics on an index out of range exactly when [right] is
    shorter than [left]; when [right] is longer, its elements past the length
    of [left] are not read. *)
Theorem partOne_panics_iff_right_shorter left right :
  (partOne left right = None <-> (length right < length left)%nat)
  /\ partOne left right = partOne left (firstn (length left) right).
Proof.
  split.
  - split.
    + intros H. destruct (Nat.lt_ge_cases (length right) (length left))
        as [Hlt|Hge]; [exact Hlt|].
      destruct (partOne_total left right Hge) as [v Hv]. congruence.
    + intros Hlt. apply partOne_loop_panics. exists (length right). split.
      * apply in_seq. lia.
      * now apply lookup_ge_None.
  - apply partOne_loop_ext. intros i Hi. apply in_seq in Hi.
    symmetry. apply lookup_take_lt. lia.
Qed.

(** *** The frequency map of [partTwo] *)

Lemma freq_lookup right v : forall freq : gmap Z Z,
  GoInt.wrap (default 0 (fold_left incr right freq !! v)) =
  GoInt.wrap (default 0 (freq !! v) + occurrences_of v right).
Proof.
  unfold occurrences_of.
  induction right as [|x right IH]; intros freq; cbn [fold_left List.filter].
  - cbn [length]. f_equal. lia.
  - rewrite IH. unfold incr.
    destruct (Z.eqb_spec v x) as [->|Hne].
    + rewrite lookup_insert_eq. cbn [default length]. unfold GoInt.add, id.
      rewrite GoIntFacts.wrap_add_l. f_equal; lia.
    + rewrite lookup_insert_ne by congruence. reflexivity.
Qed.

Lemma partTwo_loop (count : Z -> Z) right left : forall sum,
  (forall l, GoInt.wrap (count l) = GoInt.wrap (occurrences_of l right)) ->
  GoInt.in_range sum ->
  fold_left (fun sum l => GoInt.add sum (GoInt.mul l (count l))) left sum =
  GoInt.wrap (sum + similarity left right).
Proof.
  unfold similarity.
  induction left as [|l left IH]; intros sum Hc Hsum; cbn [fold_left map sumZ fold_right].
  - rewrite Z.add_0_r. symmetry. now apply GoIntFacts.wrap_small.
  - rewrite IH by (assumption || apply GoIntFacts.wrap_in_range).
    unfold GoInt.add, GoInt.mul.
    assert (E : GoInt.wrap (l * count l) = GoInt.wrap (l * occurrences_of l right))
      by (rewrite <- GoIntFacts.wrap_mul_r, Hc; apply GoIntFacts.wrap_mul_r).
    rewrite GoIntFacts.wrap_add_l.
    set (rest := sumZ (map (fun l0 => l0 * occurrences_of l0 right) left)).
    replace (sum + GoInt.wrap (l * count l) + rest)
      with (GoInt.wrap (l * count l) + (sum + rest)) by lia.
    rewrite E, GoIntFacts.wrap_add_l. f_equal. subst rest. unfold sumZ. lia.
Qed.

Lemma partTwo_similarity left right :
  partTwo left right = GoInt.wrap (similarity left right).
Proof.
  unfold partTwo.
  rewrite (partTwo_loop _ right left 0); [reflexivity| |apply GoIntFacts.in_range_0].
  intros l. rewrite freq_lookup. rewrite lookup_empty. reflexivity.
Qed.

Lemma sumZ_perm a b : Permutation a b -> sumZ a = sumZ b.
Proof.
  induction 1; cbn [sumZ fold_right] in *; unfold sumZ in *; lia.
Qed.

Lemma filter_length_perm {A} (p : A -> bool) a b :
  Permutation a b -> length (List.filter p a) = length (List.filter p b).
Proof.
  induction 1 as [|x a b _ IH|x y a|a b c _ IH1 _ IH2]; cbn [List.filter].
  - reflexivity.
  - destruct (p x); cbn [length]; lia.
  - destruct (p x), (p y); reflexivity.
  - lia.
Qed.

Lemma similarity_perm left left' right right' :
  Permutation left left' -> Permutation right right' ->
  similarity left right = similarity left' right'.
Proof.
  intros Hl Hr. unfold similarity.
  rewrite (sumZ_perm _ _ (Permutation_map _ Hl)).
  f_equal. apply map_ext. intros l. unfold occurrences_of.
  now rewrite (filter_length_perm _ _ _ Hr).
Qed.

(** X7: [partTwo] returns the similarity score, every element of [left]
    times the number of its occurrences in [right], wrapped to an [int]; so
    it does not depend on the order of either slice, and not on their having
    been sorted. *)
Theorem partTwo_is_similarity left right :
  partTwo left right = GoInt.wrap (similarity left right)
  /\ (forall left' right',
        Permutation left left' -> Permutation right right' ->
        partTwo left' right' = partTwo left right)
  /\ partTwo (sort.Ints left) (sort.Ints right) = partTwo left right.
Proof.
  split; [apply partTwo_similarity|]. split.
  - intros left' right' Hl Hr. rewrite !partTwo_similarity.
    f_equal. symmetry. now apply similarity_perm.
  - rewrite !partTwo_similarity. f_equal. symmetry.
    apply similarity_perm; apply Ints_perm.
Qed.

(** X8: when no element of [left] occurs in [right], every lookup in the
    frequency map finds no key and reads zero, and [partTwo] returns 0. *)
Theorem partTwo_nothing_in_common left right :
  (forall l, In l left -> ~ In l right) -> partTwo left right = 0.
Proof.
  intros H. rewrite partTwo_similarity. unfold similarity.
  replace (map (fun l => l * occurrences_of l right) left)
    with (map (fun _ : Z => 0) left).
  - clear H. induction left as [|l left IH]; [reflexivity|]. exact IH.
  - apply map_ext_in. intros l Hl. specialize (H l Hl).
    unfold occurrences_of.
    replace (List.filter (Z.eqb l) right) with (@nil Z); [simpl; lia|].
    symmetry. clear Hl. induction right as [|r right IH]; [reflexivity|].
    cbn [List.filter]. destruct (Z.eqb_spec l r) as [->|Hne].
    + exfalso. apply H. now left.
    + apply IH. intros Hin. apply H. now right.
Qed.

(** X8 on two columns without a common element. *)
Lemma partTwo_nothing_in_common_witness :
  (forall l, In l [1; 2] -> ~ In l [3; 4; 3]) /\ partTwo [1; 2] [3; 4; 3] = 0.
Proof.
  assert (H : forall l, In l [1; 2] -> ~ In l [3; 4; 3]).
  { intros l [<-|[<-|[]]] [E|[E|[E|[]]]]; discriminate E. }
  split; [exact H | exact (partTwo_nothing_in_common _ _ H)].
Defined.

(** *** What [readPuzzleInput] keeps of the lines *)

Lemma scan_lines_cons line lines left right out :
  scan_lines (line :: lines) left right out =
  scan_lines lines
    (left ++ match accepted line with Some p => [p.1] | None => [] end)
    (right ++ match accepted line with Some p => [p.2] | None => [] end)
    (out ++ match complaint line with Some m => [m] | None => [] end).
Proof.
  cbn [scan_lines]. unfold accepted, complaint.
  destruct (strings.Fields line) as [|first [|second more]];
    cbn [length Nat.leb nth]; rewrite ?app_nil_r; try reflexivity.
  destruct (strconv.Atoi first) as [e|l];
    [now rewrite ?app_nil_r|].
  destruct (strconv.Atoi second) as [e|r]; now rewrite ?app_nil_r.
Qed.

Lemma scan_lines_spec lines : forall left right out,
  scan_lines lines left right out =
  (left ++ map fst (pairs lines), right ++ map snd (pairs lines),
   out ++ complaints lines).
Proof.
  unfold pairs, complaints.
  induction lines as [|line lines IH]; intros left right out.
  - cbn. now rewrite !app_nil_r.
  - rewrite scan_lines_cons, IH. cbn [omap list_omap].
    destruct (accepted line) as [p|], (complaint line) as [m|];
      cbn [map]; now rewrite <- ?app_assoc, ?app_nil_r.
Qed.

(** On the line [1<U+00A0>2 3] the first two fields are [1] and [2]. *)
Example readPuzzleInput_unicode_fields :
  readPuzzleInput
    (Opened [str "1" ++ bytes [194; 160] ++ str "2 3"] false) =
  inr ([1], [2], []).
Proof. reflexivity. Qed.

(** X9: [readPuzzleInput] keeps of each line the integers of its first two
    fields and nothing else: a line with fewer than two fields is passed
    over in silence, a line whose first or second field is not an integer is
    passed over with one message, fields after the second are not read; the
    two columns come back sorted. *)
Theorem readPuzzleInput_keeps_first_two_fields lines :
  readPuzzleInput (Opened lines false) =
  inr (sort.Ints (map fst (pairs lines)), sort.Ints (map snd (pairs lines)),
       complaints lines)
  /\ Sorted Z.le (sort.Ints (map fst (pairs lines)))
  /\ Sorted Z.le (sort.Ints (map snd (pairs lines))).
Proof.
  split; [|split; apply Ints_sorted].
  unfold readPuzzleInput. rewrite scan_lines_spec. cbn [fst snd app].
  rewrite !Ints_length, !length_map, Nat.eqb_refl. reflexivity.
Qed.

(** *** The order of the lines *)

Lemma sorted_perm_eq a : forall b,
  StronglySorted Z.le a -> StronglySorted Z.le b -> Permutation a b -> a = b.
Proof.
  induction a as [|x a IH]; intros b Sa Sb Hp.
  - apply Permutation_nil in Hp. now subst.
  - destruct b as [|y b]; [symmetry in Hp; now apply Permutation_nil in Hp|].
    apply StronglySorted_inv in Sa as [Sa Ha].
    apply StronglySorted_inv in Sb as [Sb Hb].
    rewrite List.Forall_forall in Ha, Hb.
    assert (Hxy : x = y).
    { assert (Hx : In x (y :: b))
        by (eapply Permutation_in; [exact Hp | now left]).
      assert (Hy : In y (x :: a))
        by (eapply Permutation_in; [symmetry; exact Hp | now left]).
      destruct Hx as [->|Hx]; [reflexivity|].
      destruct Hy as [->|Hy]; [reflexivity|].
      specialize (Ha y Hy). specialize (Hb x Hx). lia. }
    subst y. f_equal. apply IH; try assumption.
    now apply Permutation_cons_inv in Hp.
Qed.

Lemma Ints_perm_eq a b : Permutation a b -> sort.Ints a = sort.Ints b.
Proof.
  intros Hp. apply sorted_perm_eq.
  - apply Sorted_StronglySorted; [intros x y z; apply Z.le_trans|].
    apply Ints_sorted.
  - apply Sorted_StronglySorted; [intros x y z; apply Z.le_trans|].
    apply Ints_sorted.
  - rewrite <- (Ints_perm a), <- (Ints_perm b). exact Hp.
Qed.

Lemma pairs_perm lines lines' :
  Permutation lines lines' -> Permutation (pairs lines) (pairs lines').
Proof.
  unfold pairs.
  induction 1 as [|x a b _ IH|x y a|a b c _ IH1 _ IH2]; cbn [omap list_omap].
  - reflexivity.
  - destruct (accepted x); [now apply perm_skip | exact IH].
  - destruct (accepted x), (accepted y); try reflexivity. apply perm_swap.
  - now rewrite IH1.
Qed.

(** X10: the two answers [main] prints do not depend on the order of the
    lines of the input. *)
Theorem main_line_order lines lines' scanErr :
  Permutation lines lines' ->
  main (Opened lines scanErr) = main (Opened lines' scanErr).
Proof.
  intros Hp. unfold main, readPuzzleInput. rewrite !scan_lines_spec.
  destruct scanErr; [reflexivity|]. cbn [fst snd app].
  rewrite !Ints_length, !length_map, !Nat.eqb_refl. cbn [negb fst snd].
  apply pairs_perm in Hp.
  rewrite (Ints_perm_eq _ _ (Permutation_map fst Hp)).
  rewrite (Ints_perm_eq _ _ (Permutation_map snd Hp)).
  reflexivity.
Qed.

(** X10 on the example of the puzzle, its lines read last to first. *)
Lemma main_line_order_witness :
  Permutation example_lines (rev example_lines)
  /\ main (Opened example_lines false) = main (Opened (rev example_lines) false).
Proof.
  assert (H : Permutation example_lines (rev example_lines))
    by apply Permutation_rev.
  split; [exact H | exact (main_line_order _ _ false H)].
Defined.

(** *** [partOne] on the two columns exchanged *)

Lemma float64_opp n : GoInt.float64 (- n) = - GoInt.float64 n.
Proof.
  unfold GoInt.float64. rewrite Z.abs_opp, Z.sgn_opp.
  destruct (Z.abs n <? 2 ^ 53); lia.
Qed.

Lemma wrap_opp_abs x :
  GoInt.wrap (- x) = - GoInt.wrap x \/ GoInt.wrap (- x) = GoInt.wrap x.
Proof.
  rewrite <- GoIntFacts.wrap_opp_wrap.
  pose proof (GoIntFacts.wrap_in_range x) as Hr.
  unfold GoInt.in_range, GoInt.minInt, GoInt.maxInt in Hr.
  destruct (Z.eq_dec (GoInt.wrap x) (- 2 ^ 63)) as [E|E].
  - right. rewrite E. reflexivity.
  - left. apply GoIntFacts.wrap_small.
    unfold GoInt.in_range, GoInt.minInt, GoInt.maxInt. lia.
Qed.

Lemma term_symmetric l r :
  Z.abs (GoInt.float64 (GoInt.sub l r)) = Z.abs (GoInt.float64 (GoInt.sub r l)).
Proof.
  unfold GoInt.sub. replace (r - l) with (- (l - r)) by lia.
  destruct (wrap_opp_abs (l - r)) as [E|E]; rewrite E; [|reflexivity].
  now rewrite float64_opp, Z.abs_opp.
Qed.

(** X11: on slices of the same length [partOne] gives the same sum when the
    two slices are exchanged, whatever the rounding of the doubles. *)
Theorem partOne_exchange left right :
  length left = length right -> partOne left right = partOne right left.
Proof.
  intros Hlen. unfold partOne. rewrite Hlen.
  generalize (Some 0) as acc. generalize (seq 0 (length right)) as idx.
  induction idx as [|i idx IH]; intros acc; [reflexivity|].
  cbn [fold_left].
  replace (partOne_step right left acc i) with (partOne_step left right acc i);
    [apply IH|].
  unfold partOne_step. destruct acc as [sum|]; [|reflexivity]. cbn.
  destruct (left !! i) as [l|], (right !! i) as [r|]; cbn; try reflexivity.
  now rewrite term_symmetric.
Qed.

(** X11 on the sorted columns of the example. *)
Lemma partOne_exchange_witness :
  partOne [1; 2; 3; 3; 3; 4] [3; 3; 3; 4; 5; 9]
  = partOne [3; 3; 3; 4; 5; 9] [1; 2; 3; 3; 3; 4].
Proof. apply partOne_exchange. reflexivity. Defined.

(** X12 on the columns of the example: Part 1 is the sum of the distances
    between the elements of equal rank. *)
Lemma partOne_sorted_distance_witness :
  partOne (sort.Ints [3; 4; 2; 1; 3; 3]) (sort.Ints [4; 3; 5; 3; 9; 3])
  = Some (GoInt.wrap (distance [3; 4; 2; 1; 3; 3] [4; 3; 5; 3; 9; 3])).
Proof.
  apply partOne_sorted_distance; [reflexivity| |];
    repeat (constructor; [reflexivity|]); constructor.
Defined.

End Day01Facts.

(** ** The instruction scanner *)
Module Day03Facts.
Import Day03.

(** *** Prefixes and positions *)

Lemma HasPrefix_true s prefix :
  strings.HasPrefix s prefix = true <-> exists rest, s = prefix ++ rest.
Proof.
  revert s. induction prefix as [|p prefix IH]; intros s; simpl.
  - split; eauto.
  - destruct s as [|c s].
    + split; [discriminate | intros [rest H]; discriminate].
    + rewrite andb_true_iff, Ascii.eqb_eq, IH. split.
      * intros [-> [rest ->]]. eauto.
      * intros [rest [= -> ->]]. eauto.
Qed.

Lemma Index_bounds s substr :
  0 <= strings.Index s substr ->
  (Z.to_nat (strings.Index s substr) + length substr <= length s)%nat.
Proof.
  induction s as [|c s IH]; cbn [strings.Index].
  - destruct (strings.HasPrefix [] substr) eqn:E; [|lia].
    apply HasPrefix_true in E as [rest E].
    destruct substr; [simpl; lia | discriminate].
  - destruct (strings.HasPrefix (c :: s) substr) eqn:E.
    + apply HasPrefix_true in E as [rest E]. intros _.
      apply (f_equal (@length ascii)) in E. rewrite length_app in E.
      simpl in *. lia.
    + destruct (Z.ltb_spec (strings.Index s substr) 0) as [H|H]; [lia|].
      intros _. specialize (IH H). simpl. lia.
Qed.

Lemma Index_prefix s substr :
  0 <= strings.Index s substr ->
  strings.HasPrefix (slice_from s (strings.Index s substr)) substr = true.
Proof.
  unfold slice_from. induction s as [|c s IH]; simpl.
  - destruct (strings.HasPrefix [] substr) eqn:E; [auto | lia].
  - destruct (strings.HasPrefix (c :: s) substr) eqn:E; [auto|].
    destruct (Z.ltb_spec (strings.Index s substr) 0) as [H|H]; [lia|].
    intros _. rewrite Z2Nat.inj_add by lia.
    rewrite Nat.add_comm. simpl. now apply IH.
Qed.

Lemma Index_zero s substr :
  strings.Index s substr = 0 -> strings.HasPrefix s substr = true.
Proof.
  destruct s as [|c s]; simpl.
  - destruct (strings.HasPrefix [] substr); [auto | lia].
  - destruct (strings.HasPrefix (c :: s) substr); [auto|].
    destruct (Z.ltb_spec (strings.Index s substr) 0); lia.
Qed.

Lemma Index_longer s substr more :
  0 <= strings.Index s (substr ++ more) -> 0 <= strings.Index s substr.
Proof.
  induction s as [|c s IH]; simpl.
  - destruct (strings.HasPrefix [] (substr ++ more)) eqn:E; [|lia].
    apply HasPrefix_true in E as [rest E].
    destruct substr; [simpl; lia | discriminate].
  - destruct (strings.HasPrefix (c :: s) (substr ++ more)) eqn:E.
    + apply HasPrefix_true in E as [rest E].
      assert (E' : strings.HasPrefix (c :: s) substr = true).
      { apply HasPrefix_true. exists (more ++ rest).
        now rewrite E, <- app_assoc. }
      rewrite E'. lia.
    + destruct (strings.HasPrefix (c :: s) substr); [lia|].
      destruct (Z.ltb_spec (strings.Index s (substr ++ more)) 0) as [H|H];
        [lia|].
      intros _. specialize (IH H).
      destruct (Z.ltb_spec (strings.Index s substr) 0); lia.
Qed.

Lemma slices_app {A} (s : list A) i : slice_to s i ++ slice_from s i = s.
Proof. apply firstn_skipn. Qed.

(** *** One match at the head of the text *)

Lemma span_digits_app s : (span_digits s).1 ++ (span_digits s).2 = s.
Proof.
  induction s as [|c s IH]; simpl; [reflexivity|].
  destruct (strconv.is_digit c); simpl; congruence.
Qed.

Lemma span_digits_all s :
  Forall (fun c => strconv.is_digit c = true) (span_digits s).1.
Proof.
  induction s as [|c s IH]; simpl; [constructor|].
  destruct (strconv.is_digit c) eqn:E; simpl; constructor; assumption.
Qed.

Lemma span_digits_run x t :
  Forall (fun c => strconv.is_digit c = true) x -> ends_run t ->
  span_digits (x ++ t) = (x, t).
Proof.
  intros Hx Ht. induction Hx as [|c x Hc Hx IH]; simpl.
  - destruct t as [|c t]; [reflexivity|]. simpl in *. now rewrite Ht.
  - now rewrite Hc, IH.
Qed.

Lemma mul_text_app x y rest :
  mul_text x y ++ rest =
  str "mul(" ++ x ++ ","%char :: y ++ ")"%char :: rest.
Proof.
  unfold mul_text. rewrite <- !app_assoc. reflexivity.
Qed.

Lemma match_mul_sound s x y rest :
  match_mul s = Some (x, y, rest) ->
  digits x /\ digits y /\ s = mul_text x y ++ rest.
Proof.
  unfold match_mul.
  destruct (strings.HasPrefix s (str "mul(")) eqn:P; [|discriminate].
  apply HasPrefix_true in P as [s1 ->].
  change (skipn 4 (str "mul(" ++ s1)) with s1.
  pose proof (span_digits_app s1) as Hx.
  pose proof (span_digits_all s1) as Dx.
  destruct (span_digits s1) as [[|d x'] [|sep s2]]; simpl in *;
    try discriminate.
  destruct (Ascii.eqb_spec sep ","%char) as [->|]; [|discriminate].
  pose proof (span_digits_app s2) as Hy.
  pose proof (span_digits_all s2) as Dy.
  destruct (span_digits s2) as [[|e y'] [|close s3]]; simpl in *;
    try discriminate.
  destruct (Ascii.eqb_spec close ")"%char) as [->|]; [|discriminate].
  intros [= <- <- <-].
  repeat split; try discriminate; try assumption.
  rewrite <- Hx, <- Hy. simpl. rewrite <- !app_assoc. simpl.
  now rewrite <- app_assoc.
Qed.

Lemma match_mul_complete x y rest :
  digits x -> digits y -> match_mul (mul_text x y ++ rest) = Some (x, y, rest).
Proof.
  intros [Nx Dx] [Ny Dy]. rewrite mul_text_app. unfold match_mul.
  change (strings.HasPrefix (str "mul(" ++ ?t) (str "mul(")) with true.
  cbv iota. change (skipn 4 (str "mul(" ++ ?t)) with t.
  rewrite (span_digits_run x) by (assumption || reflexivity).
  destruct x as [|d x]; [congruence|]. cbn [fst snd].
  change (Ascii.eqb ","%char ","%char) with true. cbv iota.
  rewrite (span_digits_run y) by (assumption || reflexivity).
  destruct y as [|e y]; [congruence|]. reflexivity.
Qed.

Lemma match_mul_head s : mul_at_head s <-> match_mul s <> None.
Proof.
  split.
  - intros (x & y & rest & Dx & Dy & ->).
    now rewrite match_mul_complete.
  - destruct (match_mul s) as [[[x y] rest]|] eqn:E; [|congruence].
    intros _. apply match_mul_sound in E as (Dx & Dy & ->).
    exists x, y, rest. auto.
Qed.

(** *** The leftmost match *)

Lemma find_mul_none s :
  find_mul s = None <->
  forall pre post, s = pre ++ post -> match_mul post = None.
Proof.
  induction s as [|c s IH].
  - simpl. split.
    + intros _ pre post H. symmetry in H. apply app_eq_nil in H as [_ ->].
      reflexivity.
    + reflexivity.
  - cbn [find_mul]. destruct (match_mul (c :: s)) eqn:E.
    + split; [discriminate|]. intros H. specialize (H [] (c :: s) eq_refl).
      congruence.
    + rewrite IH. split.
      * intros H [|c' pre] post Hs; simpl in Hs.
        -- now subst.
        -- injection Hs as -> ->. now apply (H pre).
      * intros H pre post ->. now apply (H (c :: pre)).
Qed.

Lemma find_mul_some s x y rest :
  find_mul s = Some (x, y, rest) ->
  exists pre,
    s = pre ++ mul_text x y ++ rest /\ digits x /\ digits y /\
    forall p1 p2, pre = p1 ++ p2 -> p2 <> [] ->
                  match_mul (p2 ++ mul_text x y ++ rest) = None.
Proof.
  induction s as [|c s IH].
  - discriminate.
  - cbn [find_mul]. destruct (match_mul (c :: s)) as [m|] eqn:E.
    + intros [= ->]. apply match_mul_sound in E as (Dx & Dy & E).
      exists []. split; [exact E|]. split; [exact Dx|]. split; [exact Dy|].
      intros p1 p2 H. symmetry in H. apply app_eq_nil in H as [_ ->].
      congruence.
    + intros H. destruct (IH H) as (pre & -> & Dx & Dy & Hleft).
      exists (c :: pre). split; [reflexivity|].
      split; [exact Dx|]. split; [exact Dy|].
      intros [|c' p1] p2 Hp Hne; simpl in Hp.
      * now subst.
      * injection Hp as -> ->. now apply (Hleft p1).
Qed.

Lemma find_mul_head s m : match_mul s = Some m -> find_mul s = Some m.
Proof. intros H. destruct s; cbn [find_mul]; now rewrite H. Qed.

Lemma find_mul_leftmost pre x y rest :
  digits x -> digits y ->
  (forall p1 p2, pre = p1 ++ p2 -> p2 <> [] ->
                 match_mul (p2 ++ mul_text x y ++ rest) = None) ->
  find_mul (pre ++ mul_text x y ++ rest) = Some (x, y, rest).
Proof.
  intros Dx Dy. induction pre as [|c pre IH]; intros Hleft.
  - apply find_mul_head. now apply match_mul_complete.
  - pose proof (Hleft [] (c :: pre) eq_refl ltac:(discriminate)) as Hc.
    rewrite <- app_comm_cons in *. cbn [find_mul]. rewrite Hc.
    apply IH. intros p1 p2 -> Hne. now apply (Hleft (c :: p1)).
Qed.

Lemma find_mul_shorter s x y rest :
  find_mul s = Some (x, y, rest) -> (length rest < length s)%nat.
Proof.
  intros H. apply find_mul_some in H as (pre & -> & _).
  rewrite mul_text_app. repeat (rewrite length_app; cbn [length]). lia.
Qed.

(** *** All the matches *)

Lemma find_all_fuel fuel1 : forall fuel2 s,
  (length s <= fuel1)%nat -> (length s <= fuel2)%nat ->
  find_all fuel1 s = find_all fuel2 s.
Proof.
  induction fuel1 as [|fuel1 IH]; intros fuel2 s H1 H2.
  - destruct s; [|simpl in H1; lia]. destruct fuel2; reflexivity.
  - destruct fuel2 as [|fuel2].
    + destruct s; [reflexivity | simpl in H2; lia].
    + simpl. destruct (find_mul s) as [[[x y] rest]|] eqn:E; [|reflexivity].
      apply find_mul_shorter in E. simpl. f_equal. apply IH; lia.
Qed.

Lemma getMatches_step s :
  getMatches s =
  match find_mul s with
  | None => []
  | Some m => (m.1.1, m.1.2) :: getMatches m.2
  end.
Proof.
  unfold getMatches. destruct s as [|c s]; [reflexivity|].
  cbn [length find_all].
  destruct (find_mul (c :: s)) as [[[x y] rest]|] eqn:E; [|reflexivity].
  apply find_mul_shorter in E. simpl in *. f_equal.
  apply find_all_fuel; lia.
Qed.

Lemma find_all_occurrences fuel : forall s,
  (length s <= fuel)%nat -> occurrences s (find_all fuel s).
Proof.
  induction fuel as [|fuel IH]; intros s Hs.
  - destruct s; [|simpl in Hs; lia]. simpl. apply occ_none.
    intros pre post H. symmetry in H. apply app_eq_nil in H as [_ ->].
    rewrite match_mul_head. intros H. now apply H.
  - simpl. destruct (find_mul s) as [[[x y] rest]|] eqn:E.
    + pose proof (find_mul_shorter _ _ _ _ E) as Hlen.
      apply find_mul_some in E as (pre & -> & Dx & Dy & Hleft). simpl.
      apply occ_first; try assumption.
      * intros p1 p2 Hp Hne. rewrite match_mul_head.
        intros H. apply H. now apply (Hleft p1).
      * apply IH. lia.
    + apply occ_none. intros pre post Hp. rewrite match_mul_head.
      intros H. apply H. eapply find_mul_none; eassumption.
Qed.

(** [getMatches] returns the occurrences of the pattern. *)
Lemma getMatches_occurrences s : occurrences s (getMatches s).
Proof. apply find_all_occurrences. reflexivity. Qed.

(** The occurrences are determined by the text. *)
Lemma occurrences_getMatches s ms : occurrences s ms -> ms = getMatches s.
Proof.
  induction 1 as [s Hnone | pre x y rest ms Dx Dy Hleft Hocc IH].
  - rewrite getMatches_step.
    replace (find_mul s) with (@None (list ascii * list ascii * list ascii));
      [reflexivity|].
    symmetry. apply find_mul_none. intros pre post Hs.
    specialize (Hnone pre post Hs). rewrite match_mul_head in Hnone.
    destruct (match_mul post); [exfalso; apply Hnone; discriminate|reflexivity].
  - rewrite getMatches_step, find_mul_leftmost; try assumption.
    + simpl. now rewrite IH.
    + intros p1 p2 Hp Hne. specialize (Hleft p1 p2 Hp Hne).
      rewrite match_mul_head in Hleft.
      destruct (match_mul _); [exfalso; apply Hleft; discriminate|reflexivity].
Qed.

(** *** [Atoi] on a run of digits *)

Lemma digit_val_bounds c :
  strconv.is_digit c = true -> 0 <= strconv.digit_val c <= 9.
Proof.
  unfold strconv.is_digit, strconv.digit_val. cbv zeta.
  rewrite andb_true_iff, !Nat.leb_le. lia.
Qed.

Lemma digit_not_sign c :
  strconv.is_digit c = true -> strconv.is_sign c = false.
Proof.
  unfold strconv.is_sign.
  destruct (Ascii.eqb_spec c "+"%char) as [->|]; [discriminate|].
  destruct (Ascii.eqb_spec c "-"%char) as [->|]; [discriminate|].
  reflexivity.
Qed.

Lemma value_from_le x : forall acc,
  Forall (fun c => strconv.is_digit c = true) x -> 0 <= acc ->
  acc <= fold_left (fun acc c => acc * 10 + strconv.digit_val c) x acc.
Proof.
  induction x as [|c x IH]; intros acc Hx Hacc; simpl; [lia|].
  inversion Hx as [|? ? Hc Hx']; subst.
  pose proof (digit_val_bounds c Hc).
  specialize (IH (acc * 10 + strconv.digit_val c) Hx'). lia.
Qed.

Lemma parse_digits_value x : forall acc,
  Forall (fun c => strconv.is_digit c = true) x ->
  0 <= acc <= GoInt.maxUint64 ->
  strconv.parse_digits acc x =
  let v := fold_left (fun acc c => acc * 10 + strconv.digit_val c) x acc in
  if v <=? GoInt.maxUint64 then inr v else inl strconv.ErrRange.
Proof.
  induction x as [|c x IH]; intros acc Hx Hacc;
    cbn [strconv.parse_digits fold_left]; cbv zeta.
  - destruct (Z.leb_spec acc GoInt.maxUint64); [reflexivity | lia].
  - inversion Hx as [|? ? Hc Hx']; subst. rewrite Hc.
    pose proof (digit_val_bounds c Hc) as Hd.
    destruct (Z.ltb_spec GoInt.maxUint64 (acc * 10 + strconv.digit_val c))
      as [Hover|Hfits].
    + pose proof (value_from_le x (acc * 10 + strconv.digit_val c) Hx'
                    ltac:(lia)) as Hle.
      destruct (Z.leb_spec
                  (fold_left (fun acc c => acc * 10 + strconv.digit_val c) x
                     (acc * 10 + strconv.digit_val c)) GoInt.maxUint64);
        [lia | reflexivity].
    + apply IH; [assumption | lia].
Qed.

Lemma Atoi_digits x :
  digits x ->
  strconv.Atoi x =
  if value x <=? GoInt.maxInt then inr (value x)
  else inl (strconv.mkNumError "Atoi" x strconv.ErrRange).
Proof.
  intros [Hne Hx]. destruct x as [|c x]; [congruence|].
  unfold strconv.Atoi.
  inversion Hx as [|? ? Hc Hx']; subst.
  rewrite (digit_not_sign c Hc).
  assert (Hneg : Ascii.eqb c "-"%char = false).
  { pose proof (digit_not_sign c Hc) as H. unfold strconv.is_sign in H.
    now apply orb_false_iff in H as [_ H]. }
  rewrite Hneg.
  rewrite parse_digits_value
    by (assumption || unfold GoInt.maxUint64; lia).
  cbv zeta. fold (value (c :: x)).
  pose proof (value_from_le (c :: x) 0 Hx ltac:(lia)) as Hpos.
  fold (value (c :: x)) in Hpos.
  unfold GoInt.maxUint64, GoInt.maxInt.
  destruct (Z.leb_spec (value (c :: x)) (2 ^ 64 - 1));
    destruct (Z.leb_spec (value (c :: x)) (2 ^ 63 - 1)); try lia;
    try reflexivity;
    destruct (Z.leb_spec (2 ^ 63) (value (c :: x))); try lia; reflexivity.
Qed.

(** *** [partOne] sums the products of the matches it converts *)

Lemma occurrences_digits s ms :
  occurrences s ms -> Forall (fun m => digits m.1 /\ digits m.2) ms.
Proof.
  induction 1; constructor; auto.
Qed.

Lemma value_nonneg x : digits x -> 0 <= value x.
Proof.
  intros [_ Hx]. apply (value_from_le x 0 Hx). lia.
Qed.

Lemma partOne_loop ms : forall sum,
  Forall (fun m => digits m.1 /\ digits m.2) ms ->
  GoInt.in_range sum ->
  fold_left partOne_step ms sum = GoInt.wrap (sum + sumZ (products ms)).
Proof.
  induction ms as [|[x y] ms IH]; intros sum Hms Hsum.
  - simpl. now rewrite Z.add_0_r, GoIntFacts.wrap_small.
  - inversion Hms as [|? ? [Dx Dy] Hms']; subst. simpl in Dx, Dy.
    cbn [fold_left]. unfold partOne_step at 2. cbn [fst snd].
    rewrite (Atoi_digits x Dx), (Atoi_digits y Dy).
    unfold products. cbn [List.filter fst snd].
    destruct (value x <=? GoInt.maxInt); cbn [andb].
    + destruct (value y <=? GoInt.maxInt).
      * rewrite IH by (assumption || apply GoIntFacts.wrap_in_range).
        unfold GoInt.add, GoInt.mul.
        rewrite GoIntFacts.wrap_add_r, GoIntFacts.wrap_add_l.
        f_equal. cbn [map sumZ fold_right fst snd].
        unfold sumZ, products. lia.
      * now rewrite IH.
    + destruct (strconv.Atoi y); now rewrite IH.
Qed.

Lemma partOne_sum memory :
  partOne memory = GoInt.wrap (sumZ (products (getMatches memory))).
Proof.
  unfold partOne. rewrite partOne_loop.
  - reflexivity.
  - apply (occurrences_digits memory), getMatches_occurrences.
  - unfold GoInt.in_range, GoInt.minInt, GoInt.maxInt. lia.
Qed.

(** C6, as stated, fails: a match with an operand past the largest [int] is
    skipped, and the sum wraps around at 2^63. *)
Lemma partOne_skips_and_wraps :
  ~ sums_every_match (str "mul(9223372036854775808,1)")
  /\ ~ sums_every_match (str "mul(3037000500,3037000500)").
Proof.
  split; intros H; specialize (H _ (getMatches_occurrences _));
    vm_compute in H; discriminate H.
Qed.

(** C6, amended: [partOne] returns the sum, wrapped to an [int], of [X*Y]
    over the non-overlapping occurrences of [mul(X,Y)] in order of
    appearance, those with an operand past the largest [int] left out; the
    markers ["do()"] and ["don't()"] play no part. *)
Theorem partOne_sums_products memory ms :
  occurrences memory ms ->
  partOne memory = GoInt.wrap (sumZ (products ms)).
Proof.
  intros H. apply occurrences_getMatches in H as ->. apply partOne_sum.
Qed.

(** The amended C6 on the example of the puzzle. *)
Lemma partOne_sums_products_witness :
  occurrences example_memory
    [(str "2", str "4"); (str "5", str "5"); (str "11", str "8");
     (str "8", str "5")]
  /\ partOne example_memory =
     GoInt.wrap (sumZ (products [(str "2", str "4"); (str "5", str "5");
                                 (str "11", str "8"); (str "8", str "5")])).
Proof.
  assert (H : occurrences example_memory
                [(str "2", str "4"); (str "5", str "5"); (str "11", str "8");
                 (str "8", str "5")])
    by exact (getMatches_occurrences example_memory).
  split; [exact H | exact (partOne_sums_products _ _ H)].
Defined.

(** *** Cutting the text before a byte no instruction contains *)

Lemma prefix_before_foreign (w : list ascii) : forall p c post rest,
  ~ In c w -> p ++ c :: post = w ++ rest ->
  exists r, p = w ++ r /\ rest = r ++ c :: post.
Proof.
  induction w as [|a w IH]; intros p c post rest Hc E.
  - exists p. auto.
  - destruct p as [|b p]; simpl in E.
    + injection E as -> _. exfalso. apply Hc. now left.
    + injection E as -> E. destruct (IH p c post rest) as (r & -> & ->).
      * intros H. apply Hc. now right.
      * assumption.
      * exists r. auto.
Qed.

Lemma mul_text_bytes x y c :
  digits x -> digits y -> In c (mul_text x y) -> pattern_byte c = true.
Proof.
  intros [_ Dx] [_ Dy] H. unfold mul_text in H. unfold pattern_byte.
  rewrite List.Forall_forall in Dx, Dy.
  repeat (apply in_app_or in H as [H|H]).
  - apply orb_true_iff. right. simpl in H.
    destruct H as [<-|[<-|[<-|[<-|[]]]]]; reflexivity.
  - now rewrite (Dx c H).
  - apply orb_true_iff. right. simpl in H. destruct H as [<-|[]]. reflexivity.
  - now rewrite (Dy c H).
  - apply orb_true_iff. right. simpl in H. destruct H as [<-|[]]. reflexivity.
Qed.

Lemma match_mul_split p c post :
  pattern_byte c = false ->
  match_mul (p ++ c :: post) =
  match match_mul p with
  | Some m => Some (m.1.1, m.1.2, m.2 ++ c :: post)
  | None => None
  end.
Proof.
  intros Hc. destruct (match_mul p) as [[[x y] r]|] eqn:E.
  - apply match_mul_sound in E as (Dx & Dy & ->).
    rewrite <- app_assoc. now apply match_mul_complete.
  - destruct (match_mul (p ++ c :: post)) as [[[x y] rest]|] eqn:E2;
      [|reflexivity].
    apply match_mul_sound in E2 as (Dx & Dy & E2).
    apply prefix_before_foreign in E2 as (r & -> & _).
    + rewrite match_mul_complete in E by assumption. discriminate.
    + intros H. apply (mul_text_bytes x y c Dx Dy) in H. congruence.
Qed.

Lemma find_mul_split pre c post :
  pattern_byte c = false ->
  find_mul (pre ++ c :: post) =
  match find_mul pre with
  | Some m => Some (m.1.1, m.1.2, m.2 ++ c :: post)
  | None => find_mul (c :: post)
  end.
Proof.
  intros Hc. induction pre as [|a pre IH]; [reflexivity|].
  rewrite <- app_comm_cons. cbn [find_mul].
  rewrite app_comm_cons, match_mul_split by assumption.
  destruct (match_mul (a :: pre)) as [[[x y] r]|]; [reflexivity | exact IH].
Qed.

Lemma getMatches_split_by_length n : forall pre c post,
  (length pre <= n)%nat -> pattern_byte c = false ->
  getMatches (pre ++ c :: post) = getMatches pre ++ getMatches (c :: post).
Proof.
  induction n as [|n IH]; intros pre c post Hn Hc;
    rewrite (getMatches_step (pre ++ c :: post)), (getMatches_step pre),
      find_mul_split by assumption.
  - destruct pre; [|simpl in Hn; lia].
    change (find_mul []) with (@None (list ascii * list ascii * list ascii)).
    cbv iota. cbn [app]. now rewrite <- getMatches_step.
  - destruct (find_mul pre) as [[[x y] r]|] eqn:E.
    + apply find_mul_shorter in E. cbn [fst snd app]. f_equal.
      apply IH; [lia|assumption].
    + cbn [app]. now rewrite <- getMatches_step.
Qed.

Lemma getMatches_split pre c post :
  pattern_byte c = false ->
  getMatches (pre ++ c :: post) = getMatches pre ++ getMatches (c :: post).
Proof. now apply (getMatches_split_by_length (length pre)). Qed.

Lemma sumZ_app a b : sumZ (a ++ b) = sumZ a + sumZ b.
Proof. induction a as [|x a IH]; simpl; lia. Qed.

Lemma products_app a b : products (a ++ b) = products a ++ products b.
Proof. unfold products. now rewrite List.filter_app, List.map_app. Qed.

Lemma products_nonneg ms :
  Forall (fun m => digits m.1 /\ digits m.2) ms -> 0 <= sumZ (products ms).
Proof.
  induction 1 as [|[x y] ms [Dx Dy] _ IH]; simpl; [lia|].
  unfold products. cbn [List.filter].
  destruct ((value (x, y).1 <=? GoInt.maxInt) && (value (x, y).2 <=? GoInt.maxInt));
    [|exact IH].
  cbn [map sumZ fold_right]. fold (sumZ (products ms)) in *.
  simpl in Dx, Dy. apply value_nonneg in Dx, Dy.
  change (0 <= value x * value y + sumZ (products ms)). nia.
Qed.

Lemma total_nonneg memory : 0 <= total memory.
Proof.
  apply products_nonneg, (occurrences_digits memory), getMatches_occurrences.
Qed.

(** The total of a text cut where [substr] first occurs, [substr] beginning
    with a byte no instruction contains. *)
Lemma total_cut memory c substr :
  pattern_byte c = false ->
  0 <= strings.Index memory (c :: substr) ->
  total memory =
  total (slice_to memory (strings.Index memory (c :: substr)))
  + total (slice_from memory (strings.Index memory (c :: substr))).
Proof.
  intros Hc Hi. pose proof (Index_prefix memory (c :: substr) Hi) as Hp.
  apply HasPrefix_true in Hp as [rest Hp].
  rewrite <- (slices_app memory (strings.Index memory (c :: substr))) at 1.
  rewrite Hp. unfold total. simpl.
  now rewrite getMatches_split, products_app, sumZ_app.
Qed.

(** *** [partTwo] *)

Lemma partOne_wrapped_total memory : partOne memory = GoInt.wrap (total memory).
Proof. apply partOne_sum. Qed.

Lemma Contains_dont memory :
  strings.Contains memory (str "don't()") = true ->
  0 <= strings.Index memory (str "don't").
Proof.
  unfold strings.Contains. rewrite Z.leb_le.
  apply (Index_longer memory (str "don't") (str "()")).
Qed.

(** Whatever [partTwo] returns is the wrapped value of a sum that lies
    between zero and the total of the text. *)
Lemma partTwo_fuel_bound fuel : forall memory enabled two,
  partTwo_fuel fuel memory enabled = Some two ->
  exists t, two = GoInt.wrap t /\ 0 <= t <= total memory.
Proof.
  induction fuel as [|fuel IH]; intros memory enabled two; [discriminate|].
  cbn [partTwo_fuel]. destruct enabled.
  - destruct (strings.Contains memory (str "don't()")) eqn:C.
    + apply Contains_dont in C.
      destruct (partTwo_fuel fuel
                  (slice_from memory (strings.Index memory (str "don't")))
                  false) as [rest|] eqn:E; [|discriminate].
      cbn. intros [= <-]. apply IH in E as (t & -> & Ht).
      exists (total (slice_to memory (strings.Index memory (str "don't"))) + t).
      split.
      * rewrite partOne_wrapped_total. apply GoIntFacts.add_wrap_wrap.
      * rewrite (total_cut memory "d"%char (str "on't") eq_refl C).
        pose proof (total_nonneg
                      (slice_to memory (strings.Index memory (str "don't")))).
        change ("d"%char :: str "on't") with (str "don't"). lia.
    + intros [= <-]. exists (total memory). split; [apply partOne_wrapped_total|].
      pose proof (total_nonneg memory). lia.
  - destruct (strings.Contains memory (str "do()")) eqn:C.
    + unfold strings.Contains in C. apply Z.leb_le in C.
      intros E. apply IH in E as (t & -> & Ht). exists t. split; [reflexivity|].
      rewrite (total_cut memory "d"%char (str "o()") eq_refl C).
      pose proof (total_nonneg
                    (slice_to memory (strings.Index memory (str "do()")))).
      change ("d"%char :: str "o()") with (str "do()"). lia.
    + intros [= <-]. exists 0. split; [reflexivity|].
      pose proof (total_nonneg memory). lia.
Qed.

Lemma slice_from_length (memory : list ascii) i :
  length (slice_from memory i) = (length memory - Z.to_nat i)%nat.
Proof. apply length_skipn. Qed.

Lemma do_not_dont memory :
  strings.HasPrefix memory (str "do()") = true ->
  strings.HasPrefix memory (str "don't") = false.
Proof.
  intros H. apply HasPrefix_true in H as [rest ->]. reflexivity.
Qed.

(** Each call of [partTwo] makes [depth] smaller. *)
Lemma depth_after_dont memory :
  0 <= strings.Index memory (str "don't") ->
  (depth (slice_from memory (strings.Index memory (str "don't"))) false
   < depth memory true)%nat.
Proof.
  intros Hi. unfold depth. rewrite slice_from_length.
  pose proof (Index_bounds memory (str "don't") Hi) as Hb.
  change (length (str "don't")) with 5%nat in Hb.
  destruct (Z.eq_dec (strings.Index memory (str "don't")) 0) as [E|E].
  - rewrite (Index_zero _ _ E), E. change (Z.to_nat 0) with 0%nat. lia.
  - destruct (strings.HasPrefix memory (str "don't")); lia.
Qed.

Lemma depth_after_do memory :
  0 <= strings.Index memory (str "do()") ->
  (depth (slice_from memory (strings.Index memory (str "do()"))) true
   < depth memory false)%nat.
Proof.
  intros Hi. unfold depth. rewrite slice_from_length.
  pose proof (Index_bounds memory (str "do()") Hi) as Hb.
  change (length (str "do()")) with 4%nat in Hb.
  destruct (Z.eq_dec (strings.Index memory (str "do()")) 0) as [E|E].
  - rewrite E. change (slice_from memory 0) with memory.
    rewrite (do_not_dont _ (Index_zero _ _ E)).
    change (Z.to_nat 0) with 0%nat. lia.
  - destruct (strings.HasPrefix _ (str "don't")); lia.
Qed.

Lemma partTwo_fuel_total fuel : forall memory enabled,
  (depth memory enabled < fuel)%nat ->
  exists two, partTwo_fuel fuel memory enabled = Some two.
Proof.
  induction fuel as [|fuel IH]; intros memory enabled Hd; [lia|].
  cbn [partTwo_fuel]. destruct enabled.
  - destruct (strings.Contains memory (str "don't()")) eqn:C; [|eauto].
    apply Contains_dont in C. pose proof (depth_after_dont memory C) as Hlt.
    destruct (IH (slice_from memory (strings.Index memory (str "don't")))
                false) as [rest ->]; [lia|].
    cbn. eauto.
  - destruct (strings.Contains memory (str "do()")) eqn:C; [|eauto].
    unfold strings.Contains in C. apply Z.leb_le in C.
    pose proof (depth_after_do memory C) as Hlt.
    apply IH. lia.
Qed.

(** [partTwo] returns: the fuel it is given is enough. *)
Lemma partTwo_returns memory enabled :
  exists two, partTwo memory enabled = Some two.
Proof.
  apply partTwo_fuel_total. unfold depth.
  destruct enabled; [destruct (strings.HasPrefix _ _)|]; lia.
Qed.

(** C10, as stated, fails: a product past 2^63 wraps around to a negative
    [int], and a wrapped product left out of Part 2 makes Part 1 the
    smaller. *)
Lemma partTwo_negative_or_larger :
  ~ partTwo_bounded (str "mul(3037000500,3037000500)")
  /\ ~ partTwo_bounded (str "mul(1,1)don't()mul(3037000500,3037000500)").
Proof.
  split; intros (two & H & Hlo & Hhi); vm_compute in H;
    injection H as <-; revert Hlo Hhi; vm_compute; intros Hlo Hhi.
  - now apply Hlo.
  - now apply Hhi.
Qed.

(** C10, amended: when the products of the matches of the text (those
    [partOne] converts) add up to at most the largest [int], [partTwo]
    returns a sum between zero and the sum of [partOne]. *)
Theorem partTwo_between_zero_and_partOne memory :
  total memory <= GoInt.maxInt -> partTwo_bounded memory.
Proof.
  intros Hfit. destruct (partTwo_returns memory true) as [two E].
  exists two. split; [exact E|].
  apply partTwo_fuel_bound in E as (t & -> & Ht).
  pose proof (total_nonneg memory) as H0.
  rewrite partOne_wrapped_total, !GoIntFacts.wrap_small
    by (unfold GoInt.in_range, GoInt.minInt, GoInt.maxInt in *; lia).
  exact Ht.
Qed.

(** The amended C10 on the example of the puzzle. *)
Lemma partTwo_between_zero_and_partOne_witness :
  total example_memory <= GoInt.maxInt /\ partTwo_bounded example_memory.
Proof.
  assert (H : total example_memory <= GoInt.maxInt)
    by (vm_compute; discriminate).
  split; [exact H | exact (partTwo_between_zero_and_partOne _ H)].
Defined.

(** C2 at the text [don't_mul(2,4)don't()]: the scan of the specification
    adds 8, since the marker is met only after the instruction; [partTwo]
    finds the marker, cuts the text at the first ["don't"], which has no
    parentheses, and returns 0. *)
Theorem partTwo_cuts_at_bare_dont :
  strings.Contains (str "don't_mul(2,4)don't()") (str "don't()") = true
  /\ strings.Index (str "don't_mul(2,4)don't()") (str "don't()") = 14
  /\ strings.Index (str "don't_mul(2,4)don't()") (str "don't") = 0
  /\ partTwo (str "don't_mul(2,4)don't()") true = Some 0
  /\ toggle_scan (str "don't_mul(2,4)don't()") = 8.
Proof.
  repeat split; vm_compute; reflexivity.
Qed.

(** On the example of the puzzle the two agree. *)
Lemma partTwo_example :
  partOne example_memory = 161
  /\ partTwo example_memory true = Some 48
  /\ toggle_scan example_memory = 48.
Proof.
  repeat split; vm_compute; reflexivity.
Qed.

(** *** The scan of the specification *)

Lemma match_mul_shorter s m : match_mul s = Some m -> (length m.2 < length s)%nat.
Proof.
  destruct m as [[x y] rest]. intros H. apply find_mul_head in H.
  now apply find_mul_shorter in H.
Qed.

Lemma toggle_scan_fuel_enough fuel1 : forall fuel2 s enabled sum,
  (length s <= fuel1)%nat -> (length s <= fuel2)%nat ->
  toggle_scan_fuel fuel1 s enabled sum = toggle_scan_fuel fuel2 s enabled sum.
Proof.
  induction fuel1 as [|fuel1 IH]; intros fuel2 s enabled sum H1 H2.
  - destruct s; [|simpl in H1; lia]. destruct fuel2; reflexivity.
  - destruct fuel2 as [|fuel2].
    + destruct s; [reflexivity | simpl in H2; lia].
    + cbn [toggle_scan_fuel]. destruct s as [|c rest]; [reflexivity|].
      cbn [length] in H1, H2.
      destruct (strings.HasPrefix (c :: rest) (str "don't()"));
        [apply IH; lia|].
      destruct (strings.HasPrefix (c :: rest) (str "do()"));
        [apply IH; lia|].
      destruct (match_mul (c :: rest)) as [m|] eqn:E; [|apply IH; lia].
      apply match_mul_shorter in E. cbn [length] in E. apply IH; lia.
Qed.

(** One step of the scan. *)
Lemma toggle_from_step c rest enabled sum :
  toggle_from (c :: rest) enabled sum =
  if strings.HasPrefix (c :: rest) (str "don't()") then
    toggle_from rest false sum
  else if strings.HasPrefix (c :: rest) (str "do()") then
    toggle_from rest true sum
  else
    match match_mul (c :: rest) with
    | Some m =>
        toggle_from m.2 enabled
          (if enabled then partOne_step sum (m.1.1, m.1.2) else sum)
    | None => toggle_from rest enabled sum
    end.
Proof.
  unfold toggle_from. cbn [length toggle_scan_fuel].
  destruct (strings.HasPrefix (c :: rest) (str "don't()")); [reflexivity|].
  destruct (strings.HasPrefix (c :: rest) (str "do()")); [reflexivity|].
  destruct (match_mul (c :: rest)) as [m|] eqn:E; [|reflexivity].
  apply match_mul_shorter in E. cbn [length] in E.
  apply toggle_scan_fuel_enough; lia.
Qed.

Lemma getMatches_skip c t :
  match_mul (c :: t) = None -> getMatches (c :: t) = getMatches t.
Proof.
  intros H. rewrite (getMatches_step (c :: t)), (getMatches_step t).
  cbn [find_mul]. now rewrite H.
Qed.

Lemma getMatches_head x y r :
  digits x -> digits y -> getMatches (mul_text x y ++ r) = (x, y) :: getMatches r.
Proof.
  intros Dx Dy. rewrite getMatches_step.
  rewrite (find_mul_head _ (x, y, r)) by now apply match_mul_complete.
  reflexivity.
Qed.

Lemma match_within pre post x y r :
  ends_pattern post -> match_mul (pre ++ post) = Some (x, y, r) ->
  digits x /\ digits y /\ exists r', pre = mul_text x y ++ r' /\ r = r' ++ post.
Proof.
  intros Hpost H. apply match_mul_sound in H as (Dx & Dy & E).
  split; [exact Dx|]. split; [exact Dy|].
  destruct post as [|c t].
  - rewrite app_nil_r in E. exists r. now rewrite app_nil_r.
  - apply prefix_before_foreign in E; [exact E|].
    intros H. apply (mul_text_bytes x y c Dx Dy) in H.
    simpl in Hpost. congruence.
Qed.

Lemma match_none_within pre post :
  ends_pattern post -> match_mul (pre ++ post) = None -> match_mul pre = None.
Proof.
  intros Hpost H. destruct post as [|c t].
  - now rewrite app_nil_r in H.
  - rewrite match_mul_split in H by exact Hpost.
    destruct (match_mul pre); [discriminate | reflexivity].
Qed.

Lemma none_before_suffix substr a b post :
  none_before substr (a ++ b) post -> none_before substr b post.
Proof.
  intros H p1 p2 E Hne. apply (H (a ++ p1) p2); [|exact Hne].
  now rewrite E, app_assoc.
Qed.

Lemma none_before_head substr pre post :
  pre <> [] -> none_before substr pre post ->
  strings.HasPrefix (pre ++ post) substr = false.
Proof. intros Hne H. now apply (H [] pre). Qed.

(** While enabled and before the next ["don't()"], the scan adds what
    [partOne] adds for the matches of the text it passes. *)
Lemma scan_enabled_by_length n : forall pre post sum,
  (length pre <= n)%nat ->
  none_before (str "don't()") pre post -> ends_pattern post ->
  toggle_from (pre ++ post) true sum =
  toggle_from post true (fold_left partOne_step (getMatches pre) sum).
Proof.
  induction n as [|n IH]; intros pre post sum Hn Hnone Hpost.
  - destruct pre; [reflexivity | simpl in Hn; lia].
  - destruct pre as [|c pre]; [reflexivity|].
    cbn [length] in Hn. rewrite <- app_comm_cons, toggle_from_step.
    rewrite app_comm_cons.
    rewrite (none_before_head _ (c :: pre) post ltac:(discriminate) Hnone).
    pose proof (none_before_suffix _ [c] pre post Hnone) as Hnone'.
    destruct (strings.HasPrefix ((c :: pre) ++ post) (str "do()")) eqn:Edo.
    + rewrite (IH pre post sum) by (assumption || lia).
      rewrite getMatches_skip; [reflexivity|].
      apply HasPrefix_true in Edo as [t Edo].
      injection Edo as -> _. reflexivity.
    + destruct (match_mul ((c :: pre) ++ post)) as [[[x y] r]|] eqn:E.
      * apply match_within in E as (Dx & Dy & r' & Epre & ->);
          [|exact Hpost].
        cbn [fst snd]. rewrite Epre in *.
        rewrite getMatches_head by assumption. cbn [fold_left].
        apply IH; [|now apply none_before_suffix in Hnone|exact Hpost].
        apply (f_equal (@length ascii)) in Epre.
        rewrite mul_text_app in Epre.
        repeat (rewrite length_app in Epre; cbn [length] in Epre). lia.
      * apply match_none_within in E; [|exact Hpost].
        rewrite (IH pre post sum) by (assumption || lia).
        now rewrite getMatches_skip.
Qed.

(** While disabled and before the next ["do()"], the scan adds nothing. *)
Lemma scan_disabled_by_length n : forall pre post sum,
  (length pre <= n)%nat ->
  none_before (str "do()") pre post -> ends_pattern post ->
  toggle_from (pre ++ post) false sum = toggle_from post false sum.
Proof.
  induction n as [|n IH]; intros pre post sum Hn Hnone Hpost.
  - destruct pre; [reflexivity | simpl in Hn; lia].
  - destruct pre as [|c pre]; [reflexivity|].
    cbn [length] in Hn. rewrite <- app_comm_cons, toggle_from_step.
    rewrite app_comm_cons.
    rewrite (none_before_head _ (c :: pre) post ltac:(discriminate) Hnone).
    pose proof (none_before_suffix _ [c] pre post Hnone) as Hnone'.
    destruct (strings.HasPrefix ((c :: pre) ++ post) (str "don't()"));
      [apply IH; (assumption || lia)|].
    destruct (match_mul ((c :: pre) ++ post)) as [[[x y] r]|] eqn:E;
      [|apply IH; (assumption || lia)].
    apply match_within in E as (Dx & Dy & r' & Epre & ->); [|exact Hpost].
    cbn [snd]. rewrite Epre in *.
    apply IH; [|now apply none_before_suffix in Hnone|exact Hpost].
    apply (f_equal (@length ascii)) in Epre.
    rewrite mul_text_app in Epre.
    repeat (rewrite length_app in Epre; cbn [length] in Epre). lia.
Qed.

Lemma Index_none_before m substr :
  0 <= strings.Index m substr ->
  none_before substr (slice_to m (strings.Index m substr))
    (slice_from m (strings.Index m substr)).
Proof.
  unfold none_before, slice_to, slice_from.
  induction m as [|c m IH]; cbn [strings.Index].
  - destruct (strings.HasPrefix [] substr); [|lia].
    intros _ p1 p2 Hp Hne. symmetry in Hp. apply app_eq_nil in Hp as [_ ->].
    congruence.
  - destruct (strings.HasPrefix (c :: m) substr) eqn:E.
    + intros _ p1 p2 Hp Hne. symmetry in Hp.
      apply app_eq_nil in Hp as [_ ->]. congruence.
    + destruct (Z.ltb_spec (strings.Index m substr) 0) as [H|H]; [lia|].
      intros _. rewrite Z2Nat.inj_add, Nat.add_comm by lia.
      change (Z.to_nat 1) with 1%nat. cbn [Nat.add firstn skipn].
      intros [|c' p1] p2 Hp Hne; simpl in Hp.
      * subst p2. cbn [app]. now rewrite firstn_skipn.
      * injection Hp as _ Hp. now apply (IH H p1).
Qed.

Lemma Index_absent m substr :
  strings.Index m substr < 0 -> none_before substr m [].
Proof.
  unfold none_before. induction m as [|c m IH]; cbn [strings.Index].
  - intros _ p1 p2 Hp Hne. symmetry in Hp. apply app_eq_nil in Hp as [_ ->].
    congruence.
  - destruct (strings.HasPrefix (c :: m) substr) eqn:E; [lia|].
    destruct (Z.ltb_spec (strings.Index m substr) 0) as [H|H]; [|lia].
    intros _ [|c' p1] p2 Hp Hne; simpl in Hp.
    + subst p2. now rewrite app_nil_r.
    + injection Hp as _ Hp. now apply (IH H p1).
Qed.

Lemma no_bare_dont_suffix pre post :
  no_bare_dont (pre ++ post) -> no_bare_dont post.
Proof.
  intros H p1 p2 E. apply (H (pre ++ p1) p2). now rewrite E, app_assoc.
Qed.

Lemma no_bare_dont_slice memory i :
  no_bare_dont memory -> no_bare_dont (slice_from memory i).
Proof.
  intros H. apply (no_bare_dont_suffix (slice_to memory i)).
  now rewrite slices_app.
Qed.

(** Without a bare ["don't"], the two searches of [partTwo] find the same
    place. *)
Lemma Index_dont_agree memory :
  no_bare_dont memory ->
  0 <= strings.Index memory (str "don't()") ->
  strings.Index memory (str "don't") = strings.Index memory (str "don't()").
Proof.
  induction memory as [|c m IH]; intros Hbare; [intros H; exfalso; revert H; now vm_compute|].
  cbn [strings.Index].
  destruct (strings.HasPrefix (c :: m) (str "don't()")) eqn:E.
  - apply HasPrefix_true in E as [rest E].
    replace (strings.HasPrefix (c :: m) (str "don't")) with true;
      [reflexivity|].
    symmetry. apply HasPrefix_true. exists (str "()" ++ rest).
    rewrite E. reflexivity.
  - destruct (strings.HasPrefix (c :: m) (str "don't")) eqn:E'.
    + apply (Hbare [] (c :: m) eq_refl) in E'. congruence.
    + destruct (Z.ltb_spec (strings.Index m (str "don't()")) 0) as [H|H];
        [lia|].
      intros _. rewrite (IH (no_bare_dont_suffix [c] m Hbare) H).
      destruct (Z.ltb_spec (strings.Index m (str "don't()")) 0); [lia|].
      reflexivity.
Qed.

Lemma fold_partOne_step_in_range ms sum :
  Forall (fun m => digits m.1 /\ digits m.2) ms -> GoInt.in_range sum ->
  GoInt.in_range (fold_left partOne_step ms sum).
Proof.
  intros Hms Hsum. rewrite partOne_loop by assumption.
  apply GoIntFacts.wrap_in_range.
Qed.

(** On a text without a bare ["don't"], what [partTwo] returns is what the
    scan of the specification adds to its sum. *)
Lemma partTwo_fuel_scan fuel : forall memory enabled two sum,
  no_bare_dont memory -> GoInt.in_range sum ->
  partTwo_fuel fuel memory enabled = Some two ->
  toggle_from memory enabled sum = GoInt.add sum two.
Proof.
  induction fuel as [|fuel IH]; intros memory enabled two sum Hbare Hsum;
    [discriminate|].
  pose proof (occurrences_digits _ _ (getMatches_occurrences memory)) as Dm.
  cbn [partTwo_fuel]. destruct enabled.
  - destruct (strings.Contains memory (str "don't()")) eqn:C.
    + unfold strings.Contains in C. apply Z.leb_le in C.
      rewrite (Index_dont_agree memory Hbare C).
      set (i := strings.Index memory (str "don't()")) in *.
      destruct (partTwo_fuel fuel (slice_from memory i) false) as [rest|] eqn:E;
        [|discriminate].
      cbn. intros [= <-].
      pose proof (Index_prefix memory _ C) as Hp. fold i in Hp.
      apply HasPrefix_true in Hp as [t Hp].
      pose proof (occurrences_digits _ _
                    (getMatches_occurrences (slice_to memory i))) as Dpre.
      rewrite <- (slices_app memory i) at 1.
      rewrite (scan_enabled_by_length (length (slice_to memory i)));
        [|reflexivity|apply Index_none_before; exact C|now rewrite Hp].
      (* the marker itself: the scan goes on disabled *)
      assert (Hstep : forall acc,
                 toggle_from (slice_from memory i) true acc =
                 toggle_from (slice_from memory i) false acc).
      { intros acc. rewrite Hp.
        change (str "don't()" ++ t) with ("d"%char :: str "on't()" ++ t).
        now rewrite !toggle_from_step. }
      rewrite Hstep.
      rewrite (IH _ false rest _ (no_bare_dont_slice _ i Hbare)
                 (fold_partOne_step_in_range _ _ Dpre Hsum) E).
      rewrite partOne_loop by assumption.
      unfold partOne. rewrite partOne_loop
        by (assumption || unfold GoInt.in_range, GoInt.minInt, GoInt.maxInt; lia).
      unfold GoInt.add.
      rewrite GoIntFacts.wrap_add_r, !GoIntFacts.wrap_add_l.
      set (pre := sumZ (products (getMatches (slice_to memory i)))).
      replace (sum + (GoInt.wrap (0 + pre) + rest))
        with (GoInt.wrap (0 + pre) + (sum + rest)) by lia.
      rewrite GoIntFacts.wrap_add_l. f_equal; lia.
    + intros [= <-]. unfold strings.Contains in C. apply Z.leb_gt in C.
      rewrite <- (app_nil_r memory) at 1.
      rewrite (scan_enabled_by_length (length memory));
        [|reflexivity|now apply Index_absent|exact I].
      unfold toggle_from. cbn [length toggle_scan_fuel].
      rewrite partOne_loop by assumption.
      unfold partOne. rewrite partOne_loop
        by (assumption || unfold GoInt.in_range, GoInt.minInt, GoInt.maxInt; lia).
      unfold GoInt.add. rewrite GoIntFacts.wrap_add_r. f_equal; lia.
  - destruct (strings.Contains memory (str "do()")) eqn:C.
    + unfold strings.Contains in C. apply Z.leb_le in C.
      set (j := strings.Index memory (str "do()")) in *.
      intros E.
      pose proof (Index_prefix memory _ C) as Hp. fold j in Hp.
      apply HasPrefix_true in Hp as [t Hp].
      rewrite <- (slices_app memory j) at 1.
      rewrite (scan_disabled_by_length (length (slice_to memory j)));
        [|reflexivity|apply Index_none_before; exact C|now rewrite Hp].
      assert (Hstep : toggle_from (slice_from memory j) false sum =
                      toggle_from (slice_from memory j) true sum).
      { rewrite Hp.
        change (str "do()" ++ t) with ("d"%char :: str "o()" ++ t).
        now rewrite !toggle_from_step. }
      rewrite Hstep.
      apply (IH _ true two _ (no_bare_dont_slice _ j Hbare) Hsum E).
    + intros [= <-]. unfold strings.Contains in C. apply Z.leb_gt in C.
      rewrite <- (app_nil_r memory) at 1.
      rewrite (scan_disabled_by_length (length memory));
        [|reflexivity|now apply Index_absent|exact I].
      unfold toggle_from. cbn [length toggle_scan_fuel].
      unfold GoInt.add. rewrite Z.add_0_r.
      symmetry. now apply GoIntFacts.wrap_small.
Qed.

(** X14: where every ["don't"] of the text is followed by ["()"], [partTwo]
    returns what the scan of the specification computes. *)
Lemma partTwo_is_toggle_scan memory :
  no_bare_dont memory -> partTwo memory true = Some (toggle_scan memory).
Proof.
  intros Hbare. destruct (partTwo_returns memory true) as [two E].
  rewrite E. f_equal. unfold partTwo in E.
  pose proof (partTwo_fuel_bound _ _ _ _ E) as (t & Ht & _).
  assert (H0 : GoInt.in_range 0)
    by (unfold GoInt.in_range, GoInt.minInt, GoInt.maxInt; lia).
  pose proof (partTwo_fuel_scan _ _ _ _ 0 Hbare H0 E) as H.
  unfold toggle_scan. fold (toggle_from memory true 0). rewrite H.
  unfold GoInt.add. rewrite Z.add_0_l, Ht.
  symmetry. apply GoIntFacts.wrap_small, GoIntFacts.wrap_in_range.
Qed.

Lemma no_bare_dontb_sound s : no_bare_dontb s = true -> no_bare_dont s.
Proof.
  induction s as [|c s IH]; cbn [no_bare_dontb]; rewrite andb_true_iff;
    intros [Hhead Htail] pre post E Hp.
  - symmetry in E. apply app_eq_nil in E as [_ ->]. discriminate Hp.
  - destruct pre as [|c' pre]; simpl in E.
    + subst post. rewrite Hp in Hhead. exact Hhead.
    + injection E as _ E. exact (IH Htail pre post E Hp).
Qed.

(** X14 on the example of the puzzle, which has no bare ["don't"]. *)
Lemma partTwo_is_toggle_scan_witness :
  no_bare_dont example_memory
  /\ partTwo example_memory true = Some (toggle_scan example_memory).
Proof.
  assert (H : no_bare_dont example_memory)
    by (apply no_bare_dontb_sound; reflexivity).
  split; [exact H | exact (partTwo_is_toggle_scan _ H)].
Defined.

(** *** The depth of the calls of [partTwo] *)

Lemma partTwo_fuel_S fuel memory enabled :
  partTwo_fuel (S fuel) memory enabled =
  if enabled then
    if strings.Contains memory (str "don't()") then
      rest ← partTwo_fuel fuel
               (slice_from memory (strings.Index memory (str "don't"))) false;
      Some (GoInt.add
              (partOne (slice_to memory (strings.Index memory (str "don't"))))
              rest)
    else Some (partOne memory)
  else
    if strings.Contains memory (str "do()") then
      partTwo_fuel fuel
        (slice_from memory (strings.Index memory (str "do()"))) true
    else Some 0.
Proof. reflexivity. Qed.

Lemma partTwo_fuel_more fuel : forall memory enabled two,
  partTwo_fuel fuel memory enabled = Some two ->
  partTwo_fuel (S fuel) memory enabled = Some two.
Proof.
  induction fuel as [|fuel IH]; intros memory enabled two; [discriminate|].
  rewrite (partTwo_fuel_S (S fuel)), (partTwo_fuel_S fuel).
  destruct enabled.
  - destruct (strings.Contains memory (str "don't()")); [|exact (fun H => H)].
    destruct (partTwo_fuel fuel _ false) as [rest|] eqn:E; [|discriminate].
    now rewrite (IH _ _ _ E).
  - destruct (strings.Contains memory (str "do()")); [|exact (fun H => H)].
    apply IH.
Qed.

Lemma partTwo_fuel_enough fuel fuel' memory enabled two :
  (fuel <= fuel')%nat ->
  partTwo_fuel fuel memory enabled = Some two ->
  partTwo_fuel fuel' memory enabled = Some two.
Proof.
  induction 1 as [|fuel' _ IH]; [exact (fun H => H)|].
  intros H. now apply partTwo_fuel_more, IH.
Qed.

(** X15: the calls of [partTwo] come to an end for either value of the
    flag: some [int] is its result with every bound on the depth of the
    calls from [3 * len(memory) + 3] on. *)
Theorem partTwo_terminates memory enabled :
  exists two,
    GoInt.in_range two
    /\ forall fuel, (3 * length memory + 3 <= fuel)%nat ->
                    partTwo_fuel fuel memory enabled = Some two.
Proof.
  destruct (partTwo_returns memory enabled) as [two E]. exists two. split.
  - apply partTwo_fuel_bound in E as (t & -> & _).
    apply GoIntFacts.wrap_in_range.
  - intros fuel Hfuel. exact (partTwo_fuel_enough _ _ _ _ _ Hfuel E).
Qed.

(** *** Texts put together *)

Lemma foreign_no_match c post : pattern_byte c = false -> match_mul (c :: post) = None.
Proof.
  intros Hc. unfold match_mul.
  destruct (strings.HasPrefix (c :: post) (str "mul(")) eqn:E; [|reflexivity].
  apply HasPrefix_true in E as [rest E]. injection E as -> _. discriminate Hc.
Qed.

(** X16: [partOne] of two texts joined by a byte that no instruction
    contains is the sum of [partOne] of each: no match reaches across the
    byte. *)
Theorem partOne_joined pre c post :
  pattern_byte c = false ->
  partOne (pre ++ c :: post) = GoInt.add (partOne pre) (partOne post).
Proof.
  intros Hc. rewrite !partOne_sum, getMatches_split by exact Hc.
  rewrite (getMatches_skip c post (foreign_no_match c post Hc)).
  rewrite products_app, sumZ_app. symmetry. apply GoIntFacts.add_wrap_wrap.
Qed.

(** X16 on two instructions with a space between them. *)
Lemma partOne_joined_witness :
  pattern_byte " "%char = false
  /\ partOne (str "mul(2,4)" ++ " "%char :: str "mul(5,5)")
     = GoInt.add (partOne (str "mul(2,4)")) (partOne (str "mul(5,5)")).
Proof.
  assert (H : pattern_byte " "%char = false) by reflexivity.
  split; [exact H | exact (partOne_joined _ _ _ H)].
Defined.

(** *** What [getMatches] returns *)

(** X17: both groups of every match [getMatches] returns are runs of at
    least one digit, so [Atoi] yields their value, and fails on one, with a
    range error, only when the value is past the largest [int]. *)
Theorem getMatches_operands memory x y :
  In (x, y) (getMatches memory) ->
  digits x /\ digits y
  /\ strconv.Atoi x =
     (if value x <=? GoInt.maxInt then inr (value x)
      else inl (strconv.mkNumError "Atoi" x strconv.ErrRange))
  /\ strconv.Atoi y =
     (if value y <=? GoInt.maxInt then inr (value y)
      else inl (strconv.mkNumError "Atoi" y strconv.ErrRange)).
Proof.
  intros Hin.
  pose proof (occurrences_digits _ _ (getMatches_occurrences memory)) as H.
  rewrite List.Forall_forall in H. destruct (H _ Hin) as [Dx Dy].
  cbn [fst snd] in Dx, Dy.
  split; [exact Dx|]. split; [exact Dy|].
  split; now apply Atoi_digits.
Qed.

(** X17 on the second match of the example of the puzzle. *)
Lemma getMatches_operands_witness :
  In (str "5", str "5") (getMatches example_memory)
  /\ strconv.Atoi (str "5") = inr 5.
Proof.
  assert (H : In (str "5", str "5") (getMatches example_memory))
    by (right; left; reflexivity).
  split; [exact H | exact (proj1 (proj2 (proj2 (getMatches_operands _ _ _ H))))].
Defined.

Lemma occurrences_count s ms :
  occurrences s ms -> (8 * length ms <= length s)%nat.
Proof.
  induction 1 as [s _ | pre x y rest ms [Nx _] [Ny _] _ _ IH]; [simpl; lia|].
  rewrite mul_text_app. repeat (rewrite length_app; cbn [length]).
  destruct x; [congruence|]. destruct y; [congruence|].
  cbn [length] in *. change (length (str "mul(")) with 4%nat. lia.
Qed.

(** X18: the matches do not overlap and each takes at least eight bytes:
    [getMatches] returns at most [len(memory) / 8] of them. *)
Theorem getMatches_count memory :
  (8 * length (getMatches memory) <= length memory)%nat.
Proof. apply occurrences_count, getMatches_occurrences. Qed.

End Day03Facts.

(** ** The distance / similarity calculator, JavaScript *)
Module Day01JSFacts.
Import Day01JS.

Lemma js_insert_perm x l : Permutation (x :: l) (insert x l).
Proof.
  induction l as [|y rest IH]; simpl; [reflexivity|].
  destruct (ltb y x); [|reflexivity].
  rewrite perm_swap. now apply perm_skip.
Qed.

Lemma sort_perm l : Permutation l (sort l).
Proof.
  induction l as [|x rest IH]; simpl; [reflexivity|].
  rewrite <- js_insert_perm. now apply perm_skip.
Qed.

Lemma safe_some z v : safe z = Some v -> v = z /\ Z.abs z <= 2 ^ 53.
Proof.
  unfold safe. destruct (Z.leb_spec (Z.abs z) (2 ^ 53)); [|discriminate].
  intros [= <-]. auto.
Qed.

Lemma safe_fits z : Z.abs z <= 2 ^ 53 -> safe z = Some z.
Proof.
  unfold safe. intros H. destruct (Z.leb_spec (Z.abs z) (2 ^ 53)); [reflexivity | lia].
Qed.

Lemma safe_over z : 2 ^ 53 < Z.abs z -> safe z = None.
Proof.
  unfold safe. intros H. destruct (Z.leb_spec (Z.abs z) (2 ^ 53)); [lia | reflexivity].
Qed.

Lemma Number_nonneg x n : Number x = Some n -> 0 <= n.
Proof.
  unfold Number. destruct x as [|c x]; [intros [= <-]; lia|].
  destruct (forallb strconv.is_digit (c :: x)) eqn:E; [|discriminate].
  intros H. apply safe_some in H as [-> _].
  apply (Day03Facts.value_from_le (c :: x) 0); [|lia].
  apply List.Forall_forall. now apply forallb_forall.
Qed.

Lemma term_nonneg right x p : term right x = Some p -> 0 <= p.
Proof.
  unfold term. destruct (Number x) as [n|] eqn:E; [|discriminate]. cbn.
  intros H. apply safe_some in H as [-> _].
  apply Number_nonneg in E. nia.
Qed.

(** One turn of the loop of [partTwo]. *)
Lemma partTwo_fold left right : forall acc,
  fold_left
    (fun acc x =>
       sum ← acc;
       n ← Number x;
       p ← safe (n * Z.of_nat (length (List.filter (fun element => str_eqb element x) right)));
       safe (sum + p))
    left acc =
  fold_left (fun acc x => sum ← acc; p ← term right x; safe (sum + p)) left acc.
Proof.
  induction left as [|x left IH]; intros acc; [reflexivity|].
  cbn [fold_left]. rewrite IH. f_equal.
  unfold term. destruct acc as [sum|]; [|reflexivity]. cbn.
  destruct (Number x); reflexivity.
Qed.

Lemma step_not_negative right acc x :
  not_negative acc ->
  not_negative (sum ← acc; p ← term right x; safe (sum + p)).
Proof.
  destruct acc as [sum|]; [|exact (fun H => H)]. cbn. intros Hs.
  destruct (term right x) as [p|] eqn:E; [|exact I]. cbn.
  apply term_nonneg in E.
  destruct (safe (sum + p)) as [v|] eqn:Ev; [|exact I].
  apply safe_some in Ev as [-> _]. cbn. lia.
Qed.

Lemma step_swap right acc x y :
  not_negative acc ->
  (sum ← (sum ← acc; p ← term right x; safe (sum + p));
   p ← term right y; safe (sum + p)) =
  (sum ← (sum ← acc; p ← term right y; safe (sum + p));
   p ← term right x; safe (sum + p)).
Proof.
  destruct acc as [sum|]; [|reflexivity]. cbn. intros Hs.
  destruct (term right x) as [px|] eqn:Ex, (term right y) as [py|] eqn:Ey; cbn.
  - apply term_nonneg in Ex, Ey.
    destruct (Z.le_gt_cases (sum + px + py) (2 ^ 53)) as [Hfit|Hover].
    + rewrite (safe_fits (sum + px)), (safe_fits (sum + py)) by lia. cbn.
      rewrite !safe_fits by lia. f_equal. lia.
    + destruct (safe (sum + px)) as [v|] eqn:Ev, (safe (sum + py)) as [w|] eqn:Ew;
        cbn; try reflexivity.
      * apply safe_some in Ev as [-> _], Ew as [-> _].
        rewrite !safe_over by lia. reflexivity.
      * apply safe_some in Ev as [-> _]. apply safe_over. lia.
      * apply safe_some in Ew as [-> _]. symmetry. apply safe_over. lia.
  - destruct (safe (sum + px)); reflexivity.
  - destruct (safe (sum + py)); reflexivity.
  - reflexivity.
Qed.

Lemma fold_perm right left left' :
  Permutation left left' -> forall acc,
  not_negative acc ->
  fold_left (fun acc x => sum ← acc; p ← term right x; safe (sum + p)) left acc =
  fold_left (fun acc x => sum ← acc; p ← term right x; safe (sum + p)) left' acc.
Proof.
  induction 1 as [|x a b _ IH|x y a|a b c _ IH1 Hbc IH2]; intros acc Hacc;
    cbn [fold_left].
  - reflexivity.
  - apply IH. now apply step_not_negative.
  - now rewrite step_swap.
  - rewrite IH1 by assumption. now apply IH2.
Qed.

Lemma term_perm right right' x :
  Permutation right right' -> term right x = term right' x.
Proof.
  intros Hp. unfold term.
  now rewrite (Day01Facts.filter_length_perm _ _ _ Hp).
Qed.

Lemma fold_right_perm right right' left :
  Permutation right right' -> forall acc,
  fold_left (fun acc x => sum ← acc; p ← term right x; safe (sum + p)) left acc =
  fold_left (fun acc x => sum ← acc; p ← term right' x; safe (sum + p)) left acc.
Proof.
  intros Hp. induction left as [|x left IH]; intros acc; [reflexivity|].
  cbn [fold_left]. now rewrite IH, (term_perm right right' x Hp).
Qed.

Lemma partTwo_perm left left' right right' :
  Permutation left left' -> Permutation right right' ->
  partTwo left' right' = partTwo left right.
Proof.
  intros Hl Hr. unfold partTwo. rewrite !partTwo_fold.
  rewrite (fold_perm right left left' Hl) by (cbn; lia).
  symmetry. now apply fold_right_perm.
Qed.

(** *** Fields of the same width *)

Lemma decimal_from s : forall acc,
  fold_left (fun acc c => acc * 10 + strconv.digit_val c) s acc =
  acc * 10 ^ Z.of_nat (length s) + decimal s.
Proof.
  unfold decimal. induction s as [|c s IH]; intros acc; cbn [fold_left length].
  - change (10 ^ Z.of_nat 0) with 1. lia.
  - rewrite IH, (IH (0 * 10 + strconv.digit_val c)).
    rewrite Nat2Z.inj_succ, Z.pow_succ_r by lia. lia.
Qed.

Lemma decimal_cons c s :
  decimal (c :: s) = strconv.digit_val c * 10 ^ Z.of_nat (length s) + decimal s.
Proof.
  unfold decimal at 1. cbn [fold_left]. rewrite decimal_from. lia.
Qed.

Lemma decimal_bounds s :
  Forall (fun c => strconv.is_digit c = true) s ->
  0 <= decimal s < 10 ^ Z.of_nat (length s).
Proof.
  induction 1 as [|c s Hc _ IH].
  - change (decimal []) with 0. change (10 ^ Z.of_nat (length [])) with 1. lia.
  - rewrite decimal_cons. cbn [length].
    rewrite Nat2Z.inj_succ, Z.pow_succ_r by lia.
    pose proof (Day03Facts.digit_val_bounds c Hc). nia.
Qed.

Lemma digit_val_lt x y :
  (nat_of_ascii x <? nat_of_ascii y)%nat = (strconv.digit_val x <? strconv.digit_val y).
Proof.
  unfold strconv.digit_val.
  destruct (Nat.ltb_spec (nat_of_ascii x) (nat_of_ascii y));
    destruct (Z.ltb_spec (Z.of_nat (nat_of_ascii x) - 48) (Z.of_nat (nat_of_ascii y) - 48));
    lia || reflexivity.
Qed.

(** On digit strings of the same length the order of the strings is the
    order of the numbers. *)
Lemma ltb_decimal a : forall b,
  length a = length b ->
  Forall (fun c => strconv.is_digit c = true) a ->
  Forall (fun c => strconv.is_digit c = true) b ->
  ltb a b = (decimal a <? decimal b).
Proof.
  induction a as [|x a IH]; intros [|y b] Hlen Da Db; try discriminate.
  - reflexivity.
  - inversion Da as [|? ? Hx Da']; inversion Db as [|? ? Hy Db']; subst.
    cbn [length] in Hlen. injection Hlen as Hlen.
    cbn [ltb]. rewrite !digit_val_lt, !decimal_cons, <- Hlen.
    pose proof (decimal_bounds a Da') as Ba.
    pose proof (decimal_bounds b Db') as Bb. rewrite <- Hlen in Bb.
    rewrite (IH b Hlen Da' Db').
    set (P := 10 ^ Z.of_nat (length a)) in *.
    destruct (Z.ltb_spec (strconv.digit_val x) (strconv.digit_val y)) as [H|H].
    + symmetry. apply Z.ltb_lt. nia.
    + destruct (Z.ltb_spec (strconv.digit_val y) (strconv.digit_val x)) as [H'|H'].
      * symmetry. apply Z.ltb_ge. nia.
      * replace (strconv.digit_val y) with (strconv.digit_val x) by lia.
        destruct (Z.ltb_spec (decimal a) (decimal b));
          destruct (Z.ltb_spec (strconv.digit_val x * P + decimal a)
                      (strconv.digit_val x * P + decimal b)); lia || reflexivity.
Qed.

Lemma nat_of_ascii_inj x y : nat_of_ascii x = nat_of_ascii y -> x = y.
Proof.
  intros H. rewrite <- (ascii_nat_embedding x), <- (ascii_nat_embedding y).
  now rewrite H.
Qed.

(** On digit strings of the same length equal numbers are equal strings. *)
Lemma str_eqb_decimal a : forall b,
  length a = length b ->
  Forall (fun c => strconv.is_digit c = true) a ->
  Forall (fun c => strconv.is_digit c = true) b ->
  str_eqb a b = (decimal a =? decimal b).
Proof.
  induction a as [|x a IH]; intros [|y b] Hlen Da Db; try discriminate.
  - reflexivity.
  - inversion Da as [|? ? Hx Da']; inversion Db as [|? ? Hy Db']; subst.
    cbn [length] in Hlen. injection Hlen as Hlen.
    cbn [str_eqb]. rewrite !decimal_cons, <- Hlen.
    pose proof (decimal_bounds a Da') as Ba.
    pose proof (decimal_bounds b Db') as Bb. rewrite <- Hlen in Bb.
    rewrite (IH b Hlen Da' Db').
    set (P := 10 ^ Z.of_nat (length a)) in *.
    destruct (Ascii.eqb_spec x y) as [->|Hne]; cbn [andb].
    + destruct (Z.eqb_spec (decimal a) (decimal b));
        destruct (Z.eqb_spec (strconv.digit_val y * P + decimal a)
                    (strconv.digit_val y * P + decimal b)); lia || reflexivity.
    + symmetry. apply Z.eqb_neq.
      assert (Hd : strconv.digit_val x <> strconv.digit_val y).
      { unfold strconv.digit_val. intros E. apply Hne, nat_of_ascii_inj. lia. }
      nia.
Qed.

Lemma ltb_asym a : forall b, ltb a b = true -> ltb b a = false.
Proof.
  induction a as [|x a IH]; intros [|y b]; cbn [ltb]; try discriminate;
    try reflexivity.
  destruct (Nat.ltb_spec (nat_of_ascii x) (nat_of_ascii y)) as [H|H].
  - intros _. destruct (Nat.ltb_spec (nat_of_ascii y) (nat_of_ascii x)); [lia|].
    destruct (Nat.ltb_spec (nat_of_ascii x) (nat_of_ascii y)); [reflexivity | lia].
  - destruct (Nat.ltb_spec (nat_of_ascii y) (nat_of_ascii x)) as [H'|H'];
      [discriminate|].
    apply IH.
Qed.

Lemma insert_hd x l a :
  not_after a x -> HdRel not_after a l -> HdRel not_after a (insert x l).
Proof.
  intros Hx Hl. destruct l as [|y rest]; cbn [insert].
  - now constructor.
  - destruct (ltb y x); constructor; [now inversion Hl | exact Hx].
Qed.

Lemma js_insert_sorted x l : Sorted not_after l -> Sorted not_after (insert x l).
Proof.
  induction 1 as [|y rest Hs IH Hhd]; cbn [insert].
  - repeat constructor.
  - destruct (ltb y x) eqn:E.
    + constructor; [exact IH|]. apply insert_hd; [|exact Hhd].
      unfold not_after. now apply ltb_asym.
    + constructor; [now constructor|]. constructor. exact E.
Qed.

Lemma sort_sorted l : Sorted not_after (sort l).
Proof.
  induction l as [|x l IH]; cbn; [constructor | now apply js_insert_sorted].
Qed.

Lemma sorted_values w l :
  Forall (digit_field w) l -> Sorted not_after l ->
  Sorted Z.le (map decimal l).
Proof.
  intros Hw Hs. induction Hs as [|x l Hs IH Hhd]; cbn [map]; [constructor|].
  inversion Hw as [|? ? [Lx Dx] Hw']; subst.
  constructor; [now apply IH|].
  destruct Hhd as [|y l Hxy]; cbn [map]; constructor.
  inversion Hw' as [|? ? [Ly Dy] _]; subst.
  unfold not_after in Hxy. rewrite (ltb_decimal y x) in Hxy by congruence.
  now apply Z.ltb_ge in Hxy.
Qed.

(** On fields of the same width, sorting the strings sorts the numbers. *)
Lemma sort_values w l :
  Forall (digit_field w) l -> map decimal (sort l) = sort.Ints (map decimal l).
Proof.
  intros Hw. apply Day01Facts.sorted_perm_eq.
  - apply Sorted_StronglySorted; [intros x y z; apply Z.le_trans|].
    apply (sorted_values w); [|apply sort_sorted].
    eapply Permutation_Forall; [apply sort_perm | exact Hw].
  - apply Sorted_StronglySorted; [intros x y z; apply Z.le_trans|].
    apply Day01Facts.Ints_sorted.
  - rewrite <- Day01Facts.Ints_perm. apply Permutation_map. symmetry.
    apply sort_perm.
Qed.

Lemma Number_field w field :
  (1 <= w <= 15)%nat -> digit_field w field -> Number field = Some (decimal field).
Proof.
  intros Hw [Hlen Hd]. unfold Number.
  destruct field as [|c field]; [cbn in Hlen; lia|].
  replace (forallb strconv.is_digit (c :: field)) with true
    by (symmetry; apply forallb_forall; now apply List.Forall_forall).
  apply safe_fits. pose proof (decimal_bounds _ Hd) as Hb. rewrite Hlen in Hb.
  assert (10 ^ Z.of_nat w <= 10 ^ 15) by (apply Z.pow_le_mono_r; lia).
  assert (10 ^ 15 <= 2 ^ 53) by (vm_compute; discriminate). lia.
Qed.

(** The loop of [partOne] from index [length doneL] on, on fields that are
    numbers, the distances staying within the exact integers. *)
Lemma js_partOne_loop_exact left : forall right doneL doneR sum,
  length doneL = length doneR ->
  length left = length right ->
  Forall (fun f => Number f = Some (decimal f)) left ->
  Forall (fun f => Number f = Some (decimal f)) right ->
  0 <= sum ->
  sum + Day01.sumZ (map (fun p => Z.abs (p.1 - p.2))
                      (combine (map decimal left) (map decimal right)))
  <= 2 ^ 53 ->
  fold_left (partOne_step (doneL ++ left) (doneR ++ right))
    (seq (length doneL) (length left)) (Some sum) =
  Some (sum + Day01.sumZ (map (fun p => Z.abs (p.1 - p.2))
                            (combine (map decimal left) (map decimal right)))).
Proof.
  induction left as [|l left IH]; intros [|r right] doneL doneR sum
    Hdone Hlen Hl Hr Hsum Hfit; try discriminate.
  - cbn. f_equal. lia.
  - inversion Hl as [|? ? Nl Hl']; inversion Hr as [|? ? Nr Hr']; subst.
    cbn [map combine Day01.sumZ fold_right fst snd] in Hfit |- *.
    fold (Day01.sumZ (map (fun p : Z * Z => Z.abs (p.1 - p.2))
                        (combine (map decimal left) (map decimal right)))) in *.
    set (rest := Day01.sumZ _) in *.
    assert (Hrest : 0 <= rest).
    { subst rest. clear. generalize (combine (map decimal left) (map decimal right)).
      intros l. induction l as [|p l IH]; cbn; [lia|]. unfold Day01.sumZ in IH. lia. }
    cbn [length seq fold_left].
    replace (partOne_step (doneL ++ l :: left) (doneR ++ r :: right)
               (Some sum) (length doneL))
      with (Some (sum + Z.abs (decimal l - decimal r))).
    + replace (doneL ++ l :: left) with ((doneL ++ [l]) ++ left)
        by now rewrite <- app_assoc.
      replace (doneR ++ r :: right) with ((doneR ++ [r]) ++ right)
        by now rewrite <- app_assoc.
      replace (S (length doneL)) with (length (doneL ++ [l]))
        by (rewrite length_app; simpl; lia).
      rewrite IH; try assumption.
      * f_equal. lia.
      * rewrite !length_app. simpl. lia.
      * simpl in Hlen. lia.
      * lia.
      * lia.
    + unfold partOne_step. cbn.
      rewrite (list_lookup_middle doneL left l) by reflexivity.
      rewrite (list_lookup_middle doneR right r) by exact Hdone.
      cbn. rewrite Nl, Nr. cbn. symmetry. apply safe_fits. lia.
Qed.

Lemma sum_abs_nonneg l :
  0 <= Day01.sumZ (map (fun p : Z * Z => Z.abs (p.1 - p.2)) l).
Proof.
  induction l as [|p l IH]; cbn; [lia|]. unfold Day01.sumZ in IH. lia.
Qed.

(** The loop of [partTwo] on fields that are numbers, the sum staying within
    the exact integers. *)
Lemma js_partTwo_loop_exact right left : forall sum,
  Forall (fun f => Number f = Some (decimal f)) left ->
  0 <= sum ->
  sum + Day01.sumZ
          (map (fun x => decimal x
                         * Z.of_nat (length (List.filter
                                               (fun element => str_eqb element x) right)))
             left) <= 2 ^ 53 ->
  fold_left (fun acc x => sum ← acc; p ← term right x; safe (sum + p)) left
    (Some sum) =
  Some (sum + Day01.sumZ
                (map (fun x => decimal x
                               * Z.of_nat (length (List.filter
                                                     (fun element => str_eqb element x) right)))
                   left)).
Proof.
  induction left as [|x left IH]; intros sum Hl Hsum Hfit.
  - cbn. f_equal. lia.
  - inversion Hl as [|? ? Nx Hl']; subst.
    unfold Day01.sumZ in *. cbn [map fold_right] in Hfit |- *.
    set (count := Z.of_nat (length (List.filter (fun element => str_eqb element x) right))) in *.
    set (rest := foldr Z.add 0 _) in *.
    assert (Hx : 0 <= decimal x) by exact (Number_nonneg _ _ Nx).
    assert (Hrest : 0 <= rest).
    { subst rest. clear - Hl'. induction Hl' as [|y l Ny _ IH]; cbn; [lia|].
      apply Number_nonneg in Ny. nia. }
    assert (Hc : 0 <= count) by (subst count; lia).
    assert (Hp : 0 <= decimal x * count) by nia.
    cbn [fold_left]. cbn. unfold term at 2. rewrite Nx. cbn. fold count.
    rewrite (safe_fits (decimal x * count)) by lia. cbn.
    rewrite (safe_fits (sum + decimal x * count)) by lia.
    rewrite IH; fold rest; [f_equal; lia | assumption | lia | lia].
Qed.

Lemma count_values w right x :
  Forall (digit_field w) right -> digit_field w x ->
  Z.of_nat (length (List.filter (fun element => str_eqb element x) right)) =
  Day01.occurrences_of (decimal x) (map decimal right).
Proof.
  intros Hr [Lx Dx]. unfold Day01.occurrences_of. f_equal.
  induction Hr as [|e right [Le De] _ IH]; [reflexivity|].
  cbn [List.filter map]. rewrite (str_eqb_decimal e x) by congruence.
  rewrite (Z.eqb_sym (decimal e)).
  destruct (decimal x =? decimal e); cbn [length]; congruence.
Qed.

Lemma field_values w l :
  (1 <= w <= 15)%nat -> Forall (digit_field w) l ->
  Forall (fun f => Number f = Some (decimal f)) l
  /\ Forall (fun v => 0 <= v < 2 ^ 52) (map decimal l).
Proof.
  intros Hw Hl. split.
  - eapply List.Forall_impl; [|exact Hl]. intros f. now apply Number_field.
  - induction Hl as [|f l [Hlen Hd] _ IH]; cbn [map]; constructor; [|exact IH].
    pose proof (decimal_bounds _ Hd) as Hb. rewrite Hlen in Hb.
    assert (10 ^ Z.of_nat w <= 10 ^ 15) by (apply Z.pow_le_mono_r; lia).
    assert (10 ^ 15 <= 2 ^ 52) by (vm_compute; discriminate). lia.
Qed.

Lemma similarity_values w left right :
  Forall (digit_field w) left -> Forall (digit_field w) right ->
  Day01.sumZ
    (map (fun x => decimal x
                   * Z.of_nat (length (List.filter
                                         (fun element => str_eqb element x) right)))
       left) =
  Day01.similarity (map decimal left) (map decimal right).
Proof.
  intros Hl Hr. unfold Day01.similarity. rewrite map_map. f_equal.
  induction Hl as [|x left Hx _ IH]; [reflexivity|].
  cbn [map]. now rewrite IH, (count_values w right x Hr Hx).
Qed.

Lemma similarity_nonneg left right :
  Forall (fun v => 0 <= v < 2 ^ 52) left -> 0 <= Day01.similarity left right.
Proof.
  unfold Day01.similarity, Day01.occurrences_of.
  induction 1 as [|l left Hl _ IH]; cbn; [lia|].
  unfold Day01.sumZ in IH. nia.
Qed.

Lemma Number_exact_field field :
  exact_field field -> Number field = Some (decimal field).
Proof.
  intros (Hne & Hd & Hfit). unfold Number.
  destruct field as [|c field]; [congruence|].
  replace (forallb strconv.is_digit (c :: field)) with true
    by (symmetry; apply forallb_forall; now apply List.Forall_forall).
  apply safe_fits. pose proof (decimal_bounds _ Hd). lia.
Qed.

Lemma weighted_sum_perm left left' right right' :
  Permutation left left' -> Permutation right right' ->
  weighted_sum left' right' = weighted_sum left right.
Proof.
  intros Hl Hr. unfold weighted_sum. symmetry.
  transitivity
    (Day01.sumZ
       (map (fun x => decimal x
                      * Z.of_nat (length (List.filter
                                            (fun element => str_eqb element x) right')))
          left)).
  - f_equal. apply map_ext. intros x.
    now rewrite (Day01Facts.filter_length_perm _ _ _ Hr).
  - apply Day01Facts.sumZ_perm. now apply Permutation_map.
Qed.

Lemma partTwo_exact left right :
  Forall exact_field left -> weighted_sum left right <= 2 ^ 53 ->
  partTwo left right = Some (weighted_sum left right).
Proof.
  intros Hl Hfit. unfold partTwo. rewrite partTwo_fold.
  rewrite js_partTwo_loop_exact.
  - reflexivity.
  - eapply List.Forall_impl; [|exact Hl]. intros f. apply Number_exact_field.
  - lia.
  - exact Hfit.
Qed.

(** X13: on fields of [left] that are runs of decimal digits of value at
    most 2^53, and with a sum of at most 2^53, [partTwo] returns that sum
    whatever the order of either array of fields; so the in-place sort of
    [partOne], which runs before it on the same two arrays, leaves its
    result as it is. *)
Theorem partTwo_after_sort left right :
  Forall exact_field left ->
  weighted_sum left right <= 2 ^ 53 ->
  (forall left' right',
     Permutation left left' -> Permutation right right' ->
     partTwo left' right' = Some (weighted_sum left right))
  /\ (answers left right).2 = Some (weighted_sum left right).
Proof.
  intros Hl Hfit.
  assert (H : forall left' right',
             Permutation left left' -> Permutation right right' ->
             partTwo left' right' = Some (weighted_sum left right)).
  { intros left' right' Pl Pr.
    rewrite <- (weighted_sum_perm left left' right right' Pl Pr).
    apply partTwo_exact.
    - exact (Permutation_Forall Pl Hl).
    - now rewrite (weighted_sum_perm left left' right right' Pl Pr). }
  split; [exact H|].
  unfold answers, partOne. cbn [fst snd]. apply H; apply sort_perm.
Qed.

(** X13 on the example of the puzzle, whose sum is 31. *)
Lemma partTwo_after_sort_witness :
  (forall left' right',
     Permutation (map str ["3"; "4"; "2"; "1"; "3"; "3"]%string) left' ->
     Permutation (map str ["4"; "3"; "5"; "3"; "9"; "3"]%string) right' ->
     partTwo left' right' = Some 31)
  /\ (answers (map str ["3"; "4"; "2"; "1"; "3"; "3"]%string)
        (map str ["4"; "3"; "5"; "3"; "9"; "3"]%string)).2 = Some 31.
Proof.
  apply (partTwo_after_sort (map str ["3"; "4"; "2"; "1"; "3"; "3"]%string)
           (map str ["4"; "3"; "5"; "3"; "9"; "3"]%string)).
  - repeat (constructor;
            [split; [discriminate | split; [repeat constructor
                                           | vm_compute; discriminate]]|]).
    constructor.
  - vm_compute. discriminate.
Defined.

(** X20: on two columns of equally many fields, every field a run of [w]
    digits with [w] from 1 to 15, and with both answers at most 2^53, the
    JavaScript functions return what the Go functions return on the sorted
    columns of the numbers. *)
Theorem answers_agree_with_go w left right :
  (1 <= w <= 15)%nat ->
  Forall (digit_field w) left -> Forall (digit_field w) right ->
  length left = length right ->
  Day01.distance (map decimal left) (map decimal right) <= 2 ^ 53 ->
  Day01.similarity (map decimal left) (map decimal right) <= 2 ^ 53 ->
  answers left right =
  (Day01.partOne (sort.Ints (map decimal left)) (sort.Ints (map decimal right)),
   Some (Day01.partTwo (sort.Ints (map decimal left))
           (sort.Ints (map decimal right)))).
Proof.
  intros Hw Hl Hr Hlen Hdist Hsim.
  pose proof (Permutation_Forall (sort_perm left) Hl) as Hsl.
  pose proof (Permutation_Forall (sort_perm right) Hr) as Hsr.
  destruct (field_values w _ Hw Hsl) as [Nl _].
  destruct (field_values w _ Hw Hsr) as [Nr _].
  destruct (field_values w _ Hw Hl) as [Nl0 Vl].
  destruct (field_values w _ Hw Hr) as [_ Vr].
  unfold answers. cbn [partOne fst snd]. f_equal.
  - (* Part 1 *)
    assert (Hd : Day01.sumZ (map (fun p => Z.abs (p.1 - p.2))
                               (combine (map decimal (sort left))
                                  (map decimal (sort right)))) =
                 Day01.distance (map decimal left) (map decimal right))
      by (unfold Day01.distance; now rewrite !(sort_values w)).
    pose proof (sum_abs_nonneg (combine (map decimal (sort left))
                                  (map decimal (sort right)))) as H0.
    assert (Hlen' : length (sort left) = length (sort right))
      by (rewrite <- (Permutation_length (sort_perm left)),
            <- (Permutation_length (sort_perm right)); exact Hlen).
    pose proof (js_partOne_loop_exact (sort left) (sort right) [] [] 0
                  eq_refl Hlen' Nl Nr (Z.le_refl 0) ltac:(lia)) as E.
    cbn [app length] in E. rewrite E. clear E.
    rewrite Day01Facts.partOne_exact.
    + rewrite <- !(sort_values w) by assumption. rewrite Z.add_0_l.
      f_equal. symmetry. apply GoIntFacts.wrap_small.
      unfold GoInt.in_range, GoInt.minInt, GoInt.maxInt. lia.
    + now rewrite !Day01Facts.Ints_length, !length_map.
    + eapply Permutation_Forall; [apply Day01Facts.Ints_perm|].
      eapply List.Forall_impl; [|exact Vl]. intros v Hv. cbv beta in Hv. unfold Day01.small. lia.
    + eapply Permutation_Forall; [apply Day01Facts.Ints_perm|].
      eapply List.Forall_impl; [|exact Vr]. intros v Hv. cbv beta in Hv. unfold Day01.small. lia.
  - (* Part 2 *)
    rewrite (partTwo_perm left (sort left) right (sort right))
      by apply sort_perm.
    unfold partTwo. rewrite partTwo_fold.
    pose proof (similarity_nonneg _ (map decimal right) Vl) as H0.
    rewrite js_partTwo_loop_exact;
      rewrite ?(similarity_values w) by assumption; try assumption; try lia.
    rewrite Day01Facts.partTwo_similarity.
    rewrite <- (Day01Facts.similarity_perm _ _ _ _
                  (Day01Facts.Ints_perm (map decimal left))
                  (Day01Facts.Ints_perm (map decimal right))).
    rewrite Z.add_0_l. f_equal. symmetry. apply GoIntFacts.wrap_small.
    unfold GoInt.in_range, GoInt.minInt, GoInt.maxInt. lia.
Qed.

(** X20 on the example of the puzzle. *)
Lemma answers_agree_with_go_witness :
  answers (map str ["3"; "4"; "2"; "1"; "3"; "3"]%string)
    (map str ["4"; "3"; "5"; "3"; "9"; "3"]%string) =
  (Day01.partOne (sort.Ints [3; 4; 2; 1; 3; 3]) (sort.Ints [4; 3; 5; 3; 9; 3]),
   Some (Day01.partTwo (sort.Ints [3; 4; 2; 1; 3; 3])
           (sort.Ints [4; 3; 5; 3; 9; 3]))).
Proof.
  apply (answers_agree_with_go 1
           (map str ["3"; "4"; "2"; "1"; "3"; "3"]%string)
           (map str ["4"; "3"; "5"; "3"; "9"; "3"]%string)).
  - lia.
  - repeat (constructor; [split; [reflexivity | repeat constructor]|]).
    constructor.
  - repeat (constructor; [split; [reflexivity | repeat constructor]|]).
    constructor.
  - reflexivity.
  - vm_compute. discriminate.
  - vm_compute. discriminate.
Defined.

End Day01JSFacts.
